(** * GraphQL-Gate: query complexity analysis and request throttling

    A shallow embedding of
    - [src/analysis/ASTnodefunctions.ts]: the AST walker that computes the
      type complexity of a parsed GraphQL query against a type-weight table;
    - [src/middleware/index.ts]: the per-client request queue
      ([throttledProcess], [processRequestResolver]) and the tail of the
      express handler that turns the rate limiter's answer into a response.

    JavaScript numbers are modelled as [Z] (weights, multipliers and costs are
    integers far below 2^53, where [+], [*] and [<=] on doubles are exact).
    JavaScript objects used as dictionaries are [gmap string _]; a read of a
    missing key is [None] (the value [undefined]), and [in] looks at the
    keys of the object itself (the two lowercase names every object
    inherits, [constructor] and [__proto__], are taken not to be field
    names).  A thrown exception is the [Throw] case of [result]; the calls
    to [console.log] are left out.

    Where a property depends on sums being exact, or on a name not being
    one that every object inherits, this is a hypothesis of the theorem:
    [exactFieldNode] and its companions are the walker with every number
    checked against [MAX_SAFE_INTEGER], and [own_name] rules out the
    members of [Object.prototype]. *)

From Stdlib Require Import ZArith String Ascii List Lia Bool.
From Stdlib Require Import DecimalString.
From stdpp Require Import base option list strings gmap fin_maps.
Import ListNotations.

Local Open Scope string_scope.
Local Open Scope Z_scope.

#[local] Set Warnings "-register-all".

(** ** Exceptions and results *)

Inductive exn : Type :=
| UndefinedType (key : string)
    (* TypeError: a property is read (or destructured) from
       [typeWeights[key]], which is undefined *)
| NotAFunction (parentName fieldName : string)
    (* TypeError: [fieldWeight] is not a function *)
| QueueMissing (userId : string)
    (* TypeError: [requestQueue[userId]] is undefined when sliced *)
| RuleError (what : string)
    (* an exception thrown inside a weight function *)
| StoreError (what : string).
    (* the rate limiter's call to the store rejected *)

Inductive result (A : Type) : Type :=
| Ok (a : A)
| Throw (e : exn).
Arguments Ok {A} a.
Arguments Throw {A} e.

Definition bind {A B : Type} (r : result A) (k : A -> result B) : result B :=
  match r with
  | Ok a => k a
  | Throw e => Throw e
  end.

Notation "'let*' x := r 'in' k" := (bind r (fun x => k))
  (at level 10, x name, r at level 100, k at level 200).

(** ** Strings *)

(** [String.prototype.toLocaleLowerCase] on GraphQL names.  A GraphQL name is
    made of ASCII letters, digits and the underscore, so the locale plays no
    role and only the letters A to Z change. *)
Definition lower_ascii (c : ascii) : ascii :=
  let n := nat_of_ascii c in
  if (andb (Nat.leb 65 n) (Nat.leb n 90)) then ascii_of_nat (n + 32) else c.

Fixpoint toLocaleLowerCase (s : string) : string :=
  match s with
  | EmptyString => EmptyString
  | String c r => String (lower_ascii c) (toLocaleLowerCase r)
  end.

(** ** The query AST (the part of graphql-js's [ast.d.ts] the walker reads) *)

(** Values carried by the request's [variables] object (JSON). *)
Inductive Value : Type :=
| VNull
| VBool (b : bool)
| VInt (n : Z)
| VStr (s : string)
| VList (l : list Value)
| VObj (l : list (string * Value)).

Inductive ValueNode : Type :=
| VariableNode (name : string)
| IntValue (value : Z)
| StringValue (value : string)
| BooleanValue (value : bool)
| NullValue
| EnumValue (value : string).

Record ArgumentNode : Type := Argument {
  arg_name : string;
  arg_value : ValueNode
}.

Inductive OperationTypeNode : Type := QUERY | MUTATION | SUBSCRIPTION.

(** The string behind each member of the [OperationTypeNode] enum. *)
Definition operation_string (op : OperationTypeNode) : string :=
  match op with
  | QUERY => "query"
  | MUTATION => "mutation"
  | SUBSCRIPTION => "subscription"
  end.

Inductive SelectionNode : Type :=
| FIELD (field : FieldNode)
| FRAGMENT_SPREAD (name : string)
| INLINE_FRAGMENT (typeCondition : option string) (selectionSet : SelectionSetNode)
with FieldNode : Type :=
| Field (alias : option string) (name : string)
        (arguments : option (list ArgumentNode))
        (selectionSet : option SelectionSetNode)
with SelectionSetNode : Type :=
| SelectionSet (selections : list SelectionNode).

Inductive DefinitionNode : Type :=
| OPERATION_DEFINITION (operation : OperationTypeNode) (name : option string)
                       (selectionSet : option SelectionSetNode)
| FRAGMENT_DEFINITION (name : string) (typeCondition : string)
                      (selectionSet : SelectionSetNode)
| TYPE_SYSTEM_DEFINITION (name : string).

Record DocumentNode : Type := Document { definitions : list DefinitionNode }.

(** ** The type-weight table *)

(** The request's variables: [{ [index: string]: any }]. *)
Abbreviation Variables := (gmap string Value).

(** A weight function as [fieldNode] calls it: with a copy of the field's
    argument nodes and with [variables[node.name.value]], which is
    [undefined] ([None]) when the request has no variable of that name. *)
Definition WeightFunction : Type :=
  list ArgumentNode -> option Value -> result Z.

(** Modelled from the spec: the [FieldWeight] type.  Its declaration
    ([src/@types/buildTypeWeights]) is not part of the sources; the three
    kinds of field descriptor are those of the data model, and [fieldNode]
    tells them apart as JavaScript does: a [Leaf] is a number
    ([typeof fieldWeight === 'number']), a [BoundedList] is callable, and an
    [ObjectRef] is neither (calling it is a TypeError). *)
Inductive FieldWeight : Type :=
| Leaf (weight : Z)
| ObjectRef (resolveTo : string)
| BoundedList (resolveTo : string) (rule : WeightFunction).

Record Type_ : Type := TypeWeight {
  weight : Z;
  fields : gmap string FieldWeight
}.

Abbreviation TypeWeightObject := (gmap string Type_).

(** The JavaScript [key in typeWeights] test. *)
Definition has_key {A : Type} (key : string) (m : gmap string A) : bool :=
  match m !! key with
  | Some _ => true
  | None => false
  end.

(** The cost rule shared by the object branch and the list branch of
    [fieldNode]:
    [selectionsCost <= 1 ? selectionsCost + weight : selectionsCost * weight]. *)
Definition combine (selectionsCost weight : Z) : Z :=
  if selectionsCost <=? 1 then selectionsCost + weight
  else selectionsCost * weight.

(** ** The AST walker, [src/analysis/ASTnodefunctions.ts] *)

Fixpoint fieldNode (node : FieldNode) (typeWeights : TypeWeightObject)
    (variables : Variables) (parentName : string) {struct node} : result Z :=
  match node with
  | Field _ name arguments selectionSet =>
    if has_key (toLocaleLowerCase name) typeWeights then
      (* field is an object type with possible selections *)
      match typeWeights !! name with
      | None => Throw (UndefinedType name)
      | Some type =>
        let* selectionsCost :=
          match selectionSet with
          | Some ss =>
              let* c := selectionSetNode ss typeWeights variables name in
              Ok (0 + c)
          | None => Ok 0
          end in
        Ok (combine selectionsCost (weight type))
      end
    else
      (* field is a scalar or a list *)
      match typeWeights !! parentName with
      | None => Throw (UndefinedType parentName)
      | Some parent =>
        match fields parent !! name with
        | Some (Leaf fieldWeight) => Ok (0 + fieldWeight)
        | fieldWeight =>
          let* selectionsCost :=
            match selectionSet with
            | Some ss =>
                let* c := selectionSetNode ss typeWeights variables name in
                Ok (0 + c)
            | None => Ok 0
            end in
          let* weight :=
            match arguments with
            | Some args =>
                match fieldWeight with
                | Some (BoundedList _ rule) =>
                    let* w := rule args (variables !! name) in
                    Ok (0 + w)
                | _ => Throw (NotAFunction parentName name)
                end
            | None => Ok 0
            end in
          Ok (combine selectionsCost weight)
        end
      end
  end

with selectionNode (node : SelectionNode) (typeWeights : TypeWeightObject)
    (variables : Variables) (parentName : string) {struct node} : result Z :=
  match node with
  | FIELD f =>
      let* c := fieldNode f typeWeights variables parentName in
      Ok (0 + c)
  | FRAGMENT_SPREAD _ => Ok 0
  | INLINE_FRAGMENT _ _ => Ok 0
  end

with selectionSetNode (node : SelectionSetNode) (typeWeights : TypeWeightObject)
    (variables : Variables) (parentName : string) {struct node} : result Z :=
  match node with
  | SelectionSet selections =>
    (fix loop (rest : list SelectionNode) (complexity : Z) : result Z :=
       match rest with
       | [] => Ok complexity
       | sel :: rest' =>
           let* c := selectionNode sel typeWeights variables parentName in
           loop rest' (complexity + c)
       end) selections 0
  end.

Definition definitionNode (node : DefinitionNode)
    (typeWeights : TypeWeightObject) (variables : Variables) : result Z :=
  match node with
  | OPERATION_DEFINITION operation _ selectionSet =>
    let op := operation_string operation in
    if has_key (toLocaleLowerCase op) typeWeights then
      match typeWeights !! op with
      | None => Throw (UndefinedType op)
      | Some type =>
        let complexity := 0 + weight type in
        match selectionSet with
        | Some ss =>
            let* c := selectionSetNode ss typeWeights variables op in
            Ok (complexity + c)
        | None => Ok complexity
        end
      end
    else Ok 0
  | FRAGMENT_DEFINITION _ _ _ => Ok 0
  | TYPE_SYSTEM_DEFINITION _ => Ok 0
  end.

Fixpoint documentNode_loop (rest : list DefinitionNode)
    (typeWeights : TypeWeightObject) (variables : Variables)
    (complexity : Z) : result Z :=
  match rest with
  | [] => Ok complexity
  | d :: rest' =>
      let* c := definitionNode d typeWeights variables in
      documentNode_loop rest' typeWeights variables (complexity + c)
  end.

Definition documentNode (node : DocumentNode) (typeWeights : TypeWeightObject)
    (variables : Variables) : result Z :=
  documentNode_loop (definitions node) typeWeights variables 0.

(** ** Weight functions of bounded lists *)

Definition assoc {A : Type} (key : string) (l : list (string * A)) : option A :=
  match List.find (fun kv => String.eqb (fst kv) key) l with
  | Some kv => Some (snd kv)
  | None => None
  end.

Definition is_keyword (keywords : list string) (name : string) : bool :=
  existsb (String.eqb name) keywords.

(** Modelled from the spec: the multiplier rule the weight-table builder
    attaches to a bounded list ([buildTypeWeightsFromSchema] is a stub that
    throws "not implemented" in the sources).  The rule looks for the
    field's slicing argument among the AST arguments and returns its
    effective value: the literal of a constant integer node; for a variable
    reference the entry [variables[varName]] when present, else the default
    declared for that variable, else the default the schema declares for
    the argument; the schema default when the argument is absent from the
    AST; and the configured fallback when nothing else applies.  A value
    that is not an integer is the invalid-argument error.  The second
    parameter is whatever the caller passes as [variables]: reading a
    property of [undefined] throws, and a primitive has no such property. *)
Definition multiplierRule (keywords : list string)
    (variableDefault : string -> option Z) (argumentDefault : option Z)
    (fallback : Z) : WeightFunction :=
  fun args variables =>
    let declared := default fallback argumentDefault in
    match List.find (fun a => is_keyword keywords (arg_name a)) args with
    | None => Ok declared
    | Some a =>
      match arg_value a with
      | IntValue n => Ok n
      | VariableNode varName =>
        match variables with
        | None => Throw (RuleError "variables is undefined")
        | Some (VObj entries) =>
          match assoc varName entries with
          | Some (VInt n) => Ok n
          | Some _ => Throw (RuleError "invalid argument")
          | None => Ok (default declared (variableDefault varName))
          end
        | Some _ => Ok (default declared (variableDefault varName))
        end
      | _ => Throw (RuleError "invalid argument")
      end
    end.

Definition slicingKeywords : list string := ["first"; "last"; "limit"].

Definition noVariableDefaults : string -> option Z := fun _ => None.

(** ** The tables and queries of the test suites *)

Module TypeComplexityTest.

(** The test suite writes a descriptor as an object, [{ weight: 0 }] for
    a scalar and [{ resolveTo: 'review', weight: f }] for a list.  The
    table below is that object in the shape [fieldNode] tests for: the
    number itself for a scalar, the callable for a list. *)

(** [mockWeightFunction], [mockHumanFriendsFunction] and
    [mockDroidFriendsFunction] stand for the rule of a list sliced by
    [first]; the tests make them return the bound the query asks for. *)
Definition firstRule : WeightFunction :=
  multiplierRule slicingKeywords noVariableDefaults None 0.

(** [search] is an unbounded list: its mock returns [undefined]. *)
Definition unboundedRule : WeightFunction :=
  fun _ _ => Throw (RuleError "unbounded list").

(** The entry of the object type [Scalars]: all its scalar fields have
    weight 0. *)
Definition scalarsType : Type_ :=
  TypeWeight 1 (list_to_map [
    ("num", Leaf 0);
    ("id", Leaf 0);
    ("float", Leaf 0);
    ("bool", Leaf 0);
    ("string", Leaf 0);
    ("test", ObjectRef "test") ]).

(** The [typeWeights] object of [test/analysis/typeComplexityAnalysis.test.ts]. *)
Definition typeWeights : TypeWeightObject :=
  list_to_map [
    ("query", TypeWeight 1 (list_to_map [
        ("reviews", BoundedList "review" firstRule);
        ("hero", ObjectRef "character");
        ("search", BoundedList "searchresult" unboundedRule);
        ("character", ObjectRef "character");
        ("droid", ObjectRef "droid");
        ("human", ObjectRef "human");
        ("scalars", ObjectRef "scalars") ]));
    ("episode", TypeWeight 0 ∅);
    ("character", TypeWeight 1 (list_to_map [
        ("id", Leaf 0);
        ("name", Leaf 0);
        ("appearsIn", ObjectRef "episode");
        ("friends", BoundedList "character" firstRule);
        ("scalarList", Leaf 0) ]));
    ("human", TypeWeight 1 (list_to_map [
        ("id", Leaf 0);
        ("name", Leaf 0);
        ("appearsIn", ObjectRef "episode");
        ("homePlanet", Leaf 0);
        ("friends", BoundedList "character" firstRule) ]));
    ("droid", TypeWeight 1 (list_to_map [
        ("id", Leaf 0);
        ("name", Leaf 0);
        ("appearsIn", ObjectRef "episode");
        ("primaryFunction", Leaf 0);
        ("friends", BoundedList "character" firstRule) ]));
    ("review", TypeWeight 1 (list_to_map [
        ("episode", ObjectRef "episode");
        ("stars", Leaf 0);
        ("commentary", Leaf 0) ]));
    ("searchresult", TypeWeight 1 ∅);
    ("scalars", scalarsType);
    ("test", TypeWeight 1 (list_to_map [
        ("name", Leaf 0);
        ("scalars", ObjectRef "scalars") ]))
  ].

(** What [parse] yields for a field: [arguments] is always an array. *)
Definition leaf (name : string) : SelectionNode :=
  FIELD (Field None name (Some []) None).

Definition query (selections : list SelectionNode) : DocumentNode :=
  Document [OPERATION_DEFINITION QUERY None (Some (SelectionSet selections))].

(** [query { scalars { num } }] *)
Definition oneField : DocumentNode :=
  query [FIELD (Field None "scalars" (Some [])
                 (Some (SelectionSet [leaf "num"])))].

(** [query { scalars { num, test { name, scalars { id } } } }] *)
Definition multipleLevels : DocumentNode :=
  query [FIELD (Field None "scalars" (Some []) (Some (SelectionSet [
           leaf "num";
           FIELD (Field None "test" (Some []) (Some (SelectionSet [
             leaf "name";
             FIELD (Field None "scalars" (Some [])
                      (Some (SelectionSet [leaf "id"])))])))])))].

(** [query { foo: scalars { num } bar: scalars { id } }] *)
Definition aliases : DocumentNode :=
  query [FIELD (Field (Some "foo") "scalars" (Some [])
                 (Some (SelectionSet [leaf "num"])));
         FIELD (Field (Some "bar") "scalars" (Some [])
                 (Some (SelectionSet [leaf "id"])))].

(** [reviews(episode: EMPIRE, first: 3) { stars, commentary }] *)
Definition reviewsField : FieldNode :=
  Field None "reviews"
    (Some [Argument "episode" (EnumValue "EMPIRE");
           Argument "first" (IntValue 3)])
    (Some (SelectionSet [leaf "stars"; leaf "commentary"])).

(** [query { reviews(episode: EMPIRE, first: 3) { stars, commentary } }] *)
Definition boundedList : DocumentNode := query [FIELD reviewsField].

(** [friends(first: 3) { name }] *)
Definition innerFriends : FieldNode :=
  Field None "friends" (Some [Argument "first" (IntValue 3)])
    (Some (SelectionSet [leaf "name"])).

(** [friends(first: 5) { name, friends(first: 3) { name } }] *)
Definition outerFriends : FieldNode :=
  Field None "friends" (Some [Argument "first" (IntValue 5)])
    (Some (SelectionSet [leaf "name"; FIELD innerFriends])).

(** [query { human(id: 1) { name, friends(first: 5) { name,
    friends(first: 3) { name } } } }] *)
Definition nestedLists : DocumentNode :=
  query [FIELD (Field None "human" (Some [Argument "id" (IntValue 1)])
                 (Some (SelectionSet [leaf "name"; FIELD outerFriends])))].

End TypeComplexityTest.

Module WeightFunctionTest.

Import TypeComplexityTest.

(** Modelled from the spec: the table the weight-table builder yields for
    the schema of [test/analysis/weightFunction.test.ts] with the default
    configuration (root [query] weight 1, object weight 1, scalar and
    enum weight 0); [buildTypeWeightsFromSchema] itself is a stub.  The
    lists are sliced by [first] or [limit], with the defaults the schema
    declares. *)
Definition typeWeights : TypeWeightObject :=
  list_to_map [
    ("query", TypeWeight 1 (list_to_map [
        ("reviews", BoundedList "review"
           (multiplierRule slicingKeywords noVariableDefaults (Some 5) 0));
        ("heroes", BoundedList "review"
           (multiplierRule slicingKeywords noVariableDefaults None 0));
        ("villains", BoundedList "review"
           (multiplierRule slicingKeywords noVariableDefaults (Some 3) 0));
        ("characters", BoundedList "review"
           (multiplierRule slicingKeywords noVariableDefaults None 0)) ]));
    ("review", TypeWeight 1 (list_to_map [
        ("episode", Leaf 0);
        ("stars", Leaf 0);
        ("commentary", Leaf 0) ]));
    ("episode", TypeWeight 0 ∅)
  ].

(** [heroes(episode: NEWHOPE, first: $items) { stars, episode }] *)
Definition heroesField : FieldNode :=
  Field None "heroes"
    (Some [Argument "episode" (EnumValue "NEWHOPE");
           Argument "first" (VariableNode "items")])
    (Some (SelectionSet [leaf "stars"; leaf "episode"])).

(** [query ($items: Int) { heroes(episode: NEWHOPE, first: $items)
    { stars, episode } }] *)
Definition variableQuery : DocumentNode := query [FIELD heroesField].

(** [{ items: 7, first: 4 }] *)
Definition variables : Variables :=
  list_to_map [("items", VInt 7); ("first", VInt 4)].

End WeightFunctionTest.

(** ** The request queue and the express handler, [src/middleware/index.ts] *)

Module Middleware.

(** Modelled from the spec: the admission record the rate limiter answers
    with ([src/@types/rateLimit] is not part of the sources). *)
Record RateLimiterResponse : Type := {
  success : bool;
  tokens : Z;
  retryAfterMs : option Z
}.

(** One call of [throttledProcess].  [caller] names the promise the call
    returns (its [resolve] and [reject] closures); it is not visible to
    the code, which only sees the three arguments. *)
Record Call : Type := {
  caller : nat;
  userId : string;
  timestamp : Z;
  cost : Z
}.

(** A number inside a template literal: the decimal digits of an integer
    below 10^21 (from there on JavaScript prints an exponent). *)
Definition number_to_string (n : Z) : string :=
  NilZero.string_of_int (Z.to_int n).

(** [const requestId = `${timestamp}${tokens}`] *)
Definition requestId (timestamp tokens : Z) : string :=
  (number_to_string timestamp ++ number_to_string tokens)%string.

(** The closure state of the middleware between two turns of the event
    loop:
    - [requestQueue]: request ids to be processed, per user;
    - [requestEvents]: the [once] listeners, oldest first, each under
      its event name with the call whose resolver it will start;
    - [inFlight]: the calls suspended at
      [await rateLimiter.processRequest(...)];
    - [settled]: the promises resolved or rejected so far, oldest first. *)
Record State : Type := {
  requestQueue : gmap string (list string);
  requestEvents : list (string * Call);
  inFlight : list Call;
  settled : list (nat * result RateLimiterResponse)
}.

Definition initial : State :=
  {| requestQueue := ∅; requestEvents := []; inFlight := []; settled := [] |}.

Definition set_queue (userId : string) (queue : list string) (st : State) : State :=
  {| requestQueue := <[userId := queue]> (requestQueue st);
     requestEvents := requestEvents st;
     inFlight := inFlight st;
     settled := settled st |}.

Definition delete_queue (userId : string) (st : State) : State :=
  {| requestQueue := delete userId (requestQueue st);
     requestEvents := requestEvents st;
     inFlight := inFlight st;
     settled := settled st |}.

Definition settle (c : Call) (r : result RateLimiterResponse) (st : State) : State :=
  {| requestQueue := requestQueue st;
     requestEvents := requestEvents st;
     inFlight := inFlight st;
     settled := settled st ++ [(caller c, r)] |}.

(** [processRequestResolver] up to its [await]: the call to
    [rateLimiter.processRequest] is made and the resolver suspends. *)
Definition processRequestResolver_call (c : Call) (st : State) : State :=
  {| requestQueue := requestQueue st;
     requestEvents := requestEvents st;
     inFlight := inFlight st ++ [c];
     settled := settled st |}.

(** [requestEvents.once(requestId, listener)] *)
Definition once (name : string) (c : Call) (st : State) : State :=
  {| requestQueue := requestQueue st;
     requestEvents := requestEvents st ++ [(name, c)];
     inFlight := inFlight st;
     settled := settled st |}.

(** [requestEvents.emit(name)]: every listener registered under [name]
    runs, in registration order, and is removed; each one starts
    [processRequestResolver] for its call.  [name] is [undefined] when the
    queue is empty; no listener is registered under it. *)
Definition emit (name : option string) (st : State) : State :=
  match name with
  | None => st
  | Some n =>
    let fired := List.filter (fun l => String.eqb (fst l) n) (requestEvents st) in
    let kept := List.filter (fun l => negb (String.eqb (fst l) n)) (requestEvents st) in
    fold_left (fun s l => processRequestResolver_call (snd l) s) fired
      {| requestQueue := requestQueue st;
         requestEvents := kept;
         inFlight := inFlight st;
         settled := settled st |}
  end.

(** [processRequestResolver] from its [await] on, when the rate limiter's
    promise settles with [outcome]. *)
Definition processRequestResolver_resume (c : Call)
    (outcome : result RateLimiterResponse) (st : State) : State :=
  match outcome with
  | Ok response =>
    match requestQueue st !! userId c with
    | None => settle c (Throw (QueueMissing (userId c))) st
    | Some queue =>
      let st1 := set_queue (userId c) (tl queue) st in
      let st2 := settle c (Ok response) st1 in
      let st3 := emit (requestQueue st2 !! userId c ≫= head) st2 in
      match requestQueue st3 !! userId c with
      | Some [] => delete_queue (userId c) st3
      | _ => st3
      end
    end
  | Throw err => settle c (Throw err) st
  end.

(** [throttledProcess], up to the return of its promise. *)
Definition throttledProcess (c : Call) (st : State) : State :=
  let requestId := requestId (timestamp c) (cost c) in
  let queue := (default [] (requestQueue st !! userId c) ++ [requestId])%list in
  let st1 := set_queue (userId c) queue st in
  if (1 <? length queue)%nat
  then once requestId c st1
  else processRequestResolver_call c st1.

(** What can happen in one turn of the event loop: the handler calls
    [throttledProcess], or the rate limiter's promise of a suspended
    call settles. *)
Inductive Event : Type :=
| Arrives (c : Call)
| Settles (caller : nat) (outcome : result RateLimiterResponse).

Definition take_inFlight (who : nat) (st : State) : option (Call * State) :=
  match List.find (fun c => Nat.eqb (caller c) who) (inFlight st) with
  | None => None
  | Some c =>
    Some (c, {| requestQueue := requestQueue st;
                requestEvents := requestEvents st;
                inFlight := List.filter (fun c' => negb (Nat.eqb (caller c') who))
                              (inFlight st);
                settled := settled st |})
  end.

(** A turn; [None] when the event is not enabled (no such call is
    suspended). *)
Definition step (st : State) (ev : Event) : option State :=
  match ev with
  | Arrives c => Some (throttledProcess c st)
  | Settles who outcome =>
    match take_inFlight who st with
    | None => None
    | Some (c, st') => Some (processRequestResolver_resume c outcome st')
    end
  end.

Fixpoint run (st : State) (evs : list Event) : option State :=
  match evs with
  | [] => Some st
  | ev :: evs' =>
    match step st ev with
    | None => None
    | Some st' => run st' evs'
    end
  end.

(** The suspended bucket calls of one client. *)
Definition inFlightFor (user : string) (st : State) : list Call :=
  List.filter (fun c => String.eqb (userId c) user) (inFlight st).

(** *** The handler, from [await throttledProcess(...)] on *)

(** [res.locals.graphqlGate] *)
Record GraphqlGate : Type := {
  gate_timestamp : Z;
  gate_complexity : Z;
  gate_tokens : Z;
  gate_success : bool;
  gate_depth : option Z
}.

(** The express response as the handler touches it: the status code and
    the headers set, the JSON payload sent ([Some None] is
    [json(undefined)]) and [res.locals]. *)
Record Response : Type := {
  statusCode : option Z;
  headers : list (string * string);
  json : option (option GraphqlGate);
  locals : gmap string GraphqlGate
}.

Definition freshResponse : Response :=
  {| statusCode := None; headers := []; json := None; locals := ∅ |}.

(** How the handler returns: it sent the response itself, or it called
    [next()] or [next(err)]. *)
Inductive Handled : Type :=
| Sent
| Next (err : option exn).

Definition set_locals (key : string) (g : GraphqlGate) (res : Response) : Response :=
  {| statusCode := statusCode res; headers := headers res;
     json := json res; locals := <[key := g]> (locals res) |}.

Definition status (code : Z) (res : Response) : Response :=
  {| statusCode := Some code; headers := headers res;
     json := json res; locals := locals res |}.

Definition send_json (payload : option GraphqlGate) (res : Response) : Response :=
  {| statusCode := statusCode res; headers := headers res;
     json := Some payload; locals := locals res |}.

(** Lines 147 to 178 of the handler; [awaited] is how the promise of
    [throttledProcess] settled. *)
Definition handleRateLimiterResponse (dark : bool)
    (requestTimestamp queryComplexity : Z) (res : Response)
    (awaited : result RateLimiterResponse) : Response * Handled :=
  match awaited with
  | Ok rateLimiterResponse =>
    let res1 :=
      set_locals "graphqlGate"
        {| gate_timestamp := requestTimestamp;
           gate_complexity := queryComplexity;
           gate_tokens := tokens rateLimiterResponse;
           gate_success := success rateLimiterResponse;
           gate_depth := None |} res in
    if negb (success rateLimiterResponse) && negb dark
    then (send_json (locals res1 !! "graphqlgate") (status 429 res1), Sent)
    else (res1, Next None)
  | Throw err => (res, Next (Some err))
  end.

Definition header (name : string) (res : Response) : option string :=
  assoc name (headers res).

(** *** The serializer as a per-client queue *)

(** The token of a call. *)
Definition token (c : Call) : string := requestId (timestamp c) (cost c).

(** The calls of one client among the pending ones, oldest first. *)
Definition pendingOf (user : string) (pending : list Call) : list Call :=
  List.filter (fun c => String.eqb (userId c) user) pending.

Definition without (who : nat) (cs : list Call) : list Call :=
  List.filter (fun c => negb (Nat.eqb (caller c) who)) cs.

(** The serializer the docstring of [throttledProcess] describes, over the
    list of the calls not yet completed, oldest first: a call may complete
    only when no earlier call of its client is pending. *)
Definition fifo_step (pending : list Call) (ev : Event) : option (list Call) :=
  match ev with
  | Arrives c => Some (pending ++ [c])%list
  | Settles who _ =>
    match List.find (fun c => Nat.eqb (caller c) who) pending with
    | None => None
    | Some c =>
      match pendingOf (userId c) pending with
      | oldest :: _ =>
          if Nat.eqb (caller oldest) who then Some (without who pending) else None
      | [] => None
      end
    end
  end.

Fixpoint fifo_run (pending : list Call) (evs : list Event) : option (list Call) :=
  match evs with
  | [] => Some pending
  | ev :: evs' =>
    match fifo_step pending ev with
    | None => None
    | Some pending' => fifo_run pending' evs'
    end
  end.

Definition arrivals (evs : list Event) : list Call :=
  flat_map (fun ev => match ev with Arrives c => [c] | Settles _ _ => [] end) evs.

Definition no_store_error (ev : Event) : Prop :=
  match ev with
  | Settles _ (Throw _) => False
  | _ => True
  end.

(** How the closure state mirrors the pending calls: per client, the queue
    holds their tokens, the oldest one is suspended in the bucket call and
    the others wait for their token to be emitted. *)
Record represents (pending : list Call) (st : State) : Prop := {
  rep_queue : forall u,
    requestQueue st !! u =
      match pendingOf u pending with
      | [] => None
      | cs => Some (map token cs)
      end;
  rep_inFlight : forall u,
    inFlightFor u st = firstn 1 (pendingOf u pending);
  rep_waiting : forall u,
    List.filter (fun l => String.eqb (userId (snd l)) u) (requestEvents st) =
      map (fun c => (token c, c)) (skipn 1 (pendingOf u pending))
}.

(** *** Calls and answers used in the scenarios *)

(** Three calls of one client; the last two come in the same millisecond
    with queries of the same complexity. *)
Definition first : Call :=
  {| caller := 0; userId := "10.0.0.1"; timestamp := 1000; cost := 2 |}.

Definition second : Call :=
  {| caller := 1; userId := "10.0.0.1"; timestamp := 1001; cost := 5 |}.

Definition third : Call :=
  {| caller := 2; userId := "10.0.0.1"; timestamp := 1001; cost := 5 |}.

(** A later call of the same client, with a token of its own. *)
Definition fourth : Call :=
  {| caller := 3; userId := "10.0.0.1"; timestamp := 1002; cost := 5 |}.

Definition admitted : result RateLimiterResponse :=
  Ok {| success := true; tokens := 3; retryAfterMs := None |}.

Definition rejected : RateLimiterResponse :=
  {| success := false; tokens := 4; retryAfterMs := Some 2000 |}.

Definition storeTimeout : result RateLimiterResponse :=
  Throw (StoreError "timeout").

(** The events that concern one client: its own calls, and the settling of
    whatever is suspended. *)
Definition of_client (user : string) (ev : Event) : Prop :=
  match ev with
  | Arrives c => userId c = user
  | Settles _ _ => True
  end.

End Middleware.

(** ** Auxiliary definitions for the statements *)

(** The [for] loop of [selectionSetNode], started with [complexity]. *)
Fixpoint selections_loop (rest : list SelectionNode)
    (typeWeights : TypeWeightObject) (variables : Variables)
    (parentName : string) (complexity : Z) : result Z :=
  match rest with
  | [] => Ok complexity
  | sel :: rest' =>
      let* c := selectionNode sel typeWeights variables parentName in
      selections_loop rest' typeWeights variables parentName (complexity + c)
  end.

(** [let selectionsCost = 0; if (node.selectionSet) selectionsCost +=
    selectionSetNode(node.selectionSet, typeWeights, variables, context)] *)
Definition selectionsCost (selectionSet : option SelectionSetNode)
    (typeWeights : TypeWeightObject) (variables : Variables)
    (context : string) : result Z :=
  match selectionSet with
  | Some ss =>
      let* c := selectionSetNode ss typeWeights variables context in
      Ok (0 + c)
  | None => Ok 0
  end.

(** The contribution the specification states for a bounded list with
    element type [resolveTo] and rule [rule]: the selection set is costed in
    the context of the element type. *)
Definition listContribution_spec (node : FieldNode) (resolveTo : string)
    (rule : WeightFunction) (typeWeights : TypeWeightObject)
    (variables : Variables) : result Z :=
  match node with
  | Field _ name arguments selectionSet =>
    let* s := selectionsCost selectionSet typeWeights variables resolveTo in
    let* m := rule (default [] arguments) (variables !! name) in
    Ok (if s <=? 1 then s + m else s * m)
  end.

(** All weights of a table, and all results of its rules, are
    non-negative. *)
Definition nonneg_field (fw : FieldWeight) : Prop :=
  match fw with
  | Leaf w => 0 <= w
  | ObjectRef _ => True
  | BoundedList _ rule => forall args v n, rule args v = Ok n -> 0 <= n
  end.

Definition nonneg_type (t : Type_) : Prop :=
  0 <= weight t /\ map_Forall (fun _ fw => nonneg_field fw) (fields t).

Definition nonneg_table (typeWeights : TypeWeightObject) : Prop :=
  map_Forall (fun _ t => nonneg_type t) typeWeights.

(** The outcome of a walk is an exception or a non-negative cost. *)
Definition nonneg_result (r : result Z) : Prop :=
  match r with
  | Ok n => 0 <= n
  | Throw _ => True
  end.

(** A leaf of the type [type]: a field that is no type key of the table
    and whose descriptor in [type] is the number [w]. *)
Definition leaf_of (typeWeights : TypeWeightObject) (type : Type_) (w : Z)
    (sel : SelectionNode) : Prop :=
  match sel with
  | FIELD (Field _ name _ _) =>
      has_key (toLocaleLowerCase name) typeWeights = false /\
      fields type !! name = Some (Leaf w)
  | _ => False
  end.

(** Selections and definitions the walker has no case for. *)
Definition not_a_field (sel : SelectionNode) : Prop :=
  match sel with
  | FIELD _ => False
  | FRAGMENT_SPREAD _ | INLINE_FRAGMENT _ _ => True
  end.

Definition not_costed (typeWeights : TypeWeightObject) (d : DefinitionNode) : Prop :=
  match d with
  | OPERATION_DEFINITION operation _ _ =>
      typeWeights !! operation_string operation = None
  | FRAGMENT_DEFINITION _ _ _ | TYPE_SYSTEM_DEFINITION _ => True
  end.

(** The names of the fields selected in a node, at any depth. *)
Fixpoint names_of_field (node : FieldNode) : list string :=
  match node with
  | Field _ name _ selectionSet =>
      name :: match selectionSet with
              | Some ss => names_of_set ss
              | None => []
              end
  end
with names_of_selection (node : SelectionNode) : list string :=
  match node with
  | FIELD f => names_of_field f
  | FRAGMENT_SPREAD _ => []
  | INLINE_FRAGMENT _ ss => names_of_set ss
  end
with names_of_set (node : SelectionSetNode) : list string :=
  match node with
  | SelectionSet selections =>
      (fix go (l : list SelectionNode) : list string :=
         match l with
         | [] => []
         | sel :: l' => (names_of_selection sel ++ go l')%list
         end) selections
  end.

Definition names_of_definition (d : DefinitionNode) : list string :=
  match d with
  | OPERATION_DEFINITION _ _ (Some ss) => names_of_set ss
  | _ => []
  end.

Definition names_of_document (node : DocumentNode) : list string :=
  concat (map names_of_definition (definitions node)).

(** Two variable objects agree on the names of a list. *)
Definition agree_on (names : list string) (v1 v2 : Variables) : Prop :=
  forall x, In x names -> v1 !! x = v2 !! x.

(** ** The walker within the integers a double holds exactly *)

(** [Number.MAX_SAFE_INTEGER] and [Number.isSafeInteger] on integers. *)
Definition MAX_SAFE_INTEGER : Z := 2 ^ 53 - 1.

Definition isSafeInteger (z : Z) : bool := Z.abs z <=? MAX_SAFE_INTEGER.

(** A number the walker reads or computes.  Up to [MAX_SAFE_INTEGER] the
    double is the integer, and [+] and [*] give the integer result; beyond
    it the double is a rounded value, of which the walk below says nothing
    ([None]). *)
Definition number (z : Z) : option (result Z) :=
  if isSafeInteger z then Some (Ok z) else None.

Definition andThen (r : option (result Z)) (k : Z -> option (result Z)) :
    option (result Z) :=
  match r with
  | Some (Ok z) => k z
  | Some (Throw e) => Some (Throw e)
  | None => None
  end.

(** [fieldNode], [selectionNode] and [selectionSetNode] statement by
    statement, with every weight read from the table, every result of a
    weight function and every sum and product passed through [number]. *)
Fixpoint exactFieldNode (node : FieldNode) (typeWeights : TypeWeightObject)
    (variables : Variables) (parentName : string) {struct node} :
    option (result Z) :=
  match node with
  | Field _ name arguments selectionSet =>
    if has_key (toLocaleLowerCase name) typeWeights then
      match typeWeights !! name with
      | None => Some (Throw (UndefinedType name))
      | Some type =>
        andThen (number (weight type)) (fun weight =>
        andThen
          match selectionSet with
          | Some ss =>
              andThen (exactSelectionSetNode ss typeWeights variables name)
                (fun c => number (0 + c))
          | None => number 0
          end (fun selectionsCost =>
        number (combine selectionsCost weight)))
      end
    else
      match typeWeights !! parentName with
      | None => Some (Throw (UndefinedType parentName))
      | Some parent =>
        match fields parent !! name with
        | Some (Leaf fieldWeight) =>
            andThen (number fieldWeight) (fun w => number (0 + w))
        | fieldWeight =>
          andThen
            match selectionSet with
            | Some ss =>
                andThen (exactSelectionSetNode ss typeWeights variables name)
                  (fun c => number (0 + c))
            | None => number 0
            end (fun selectionsCost =>
          andThen
            match arguments with
            | Some args =>
                match fieldWeight with
                | Some (BoundedList _ rule) =>
                    match rule args (variables !! name) with
                    | Ok w => andThen (number w) (fun w => number (0 + w))
                    | Throw e => Some (Throw e)
                    end
                | _ => Some (Throw (NotAFunction parentName name))
                end
            | None => number 0
            end (fun weight =>
          number (combine selectionsCost weight)))
        end
      end
  end

with exactSelectionNode (node : SelectionNode) (typeWeights : TypeWeightObject)
    (variables : Variables) (parentName : string) {struct node} :
    option (result Z) :=
  match node with
  | FIELD f =>
      andThen (exactFieldNode f typeWeights variables parentName)
        (fun c => number (0 + c))
  | FRAGMENT_SPREAD _ => number 0
  | INLINE_FRAGMENT _ _ => number 0
  end

with exactSelectionSetNode (node : SelectionSetNode)
    (typeWeights : TypeWeightObject) (variables : Variables)
    (parentName : string) {struct node} : option (result Z) :=
  match node with
  | SelectionSet selections =>
    (fix loop (rest : list SelectionNode) (complexity : Z) :
         option (result Z) :=
       match rest with
       | [] => Some (Ok complexity)
       | sel :: rest' =>
           andThen (exactSelectionNode sel typeWeights variables parentName)
             (fun c =>
           andThen (number (complexity + c)) (fun complexity' =>
           loop rest' complexity'))
       end) selections 0
  end.

Definition exactDefinitionNode (node : DefinitionNode)
    (typeWeights : TypeWeightObject) (variables : Variables) :
    option (result Z) :=
  match node with
  | OPERATION_DEFINITION operation _ selectionSet =>
    let op := operation_string operation in
    if has_key (toLocaleLowerCase op) typeWeights then
      match typeWeights !! op with
      | None => Some (Throw (UndefinedType op))
      | Some type =>
        andThen (number (weight type)) (fun w =>
        andThen (number (0 + w)) (fun complexity =>
        match selectionSet with
        | Some ss =>
            andThen (exactSelectionSetNode ss typeWeights variables op)
              (fun c => number (complexity + c))
        | None => Some (Ok complexity)
        end))
      end
    else number 0
  | FRAGMENT_DEFINITION _ _ _ => number 0
  | TYPE_SYSTEM_DEFINITION _ => number 0
  end.

Fixpoint exactDocumentNode_loop (rest : list DefinitionNode)
    (typeWeights : TypeWeightObject) (variables : Variables)
    (complexity : Z) : option (result Z) :=
  match rest with
  | [] => Some (Ok complexity)
  | d :: rest' =>
      andThen (exactDefinitionNode d typeWeights variables) (fun c =>
      andThen (number (complexity + c)) (fun complexity' =>
      exactDocumentNode_loop rest' typeWeights variables complexity'))
  end.

Definition exactDocumentNode (node : DocumentNode)
    (typeWeights : TypeWeightObject) (variables : Variables) :
    option (result Z) :=
  exactDocumentNode_loop (definitions node) typeWeights variables 0.

(** The loop of [exactSelectionSetNode] and the selections cost of
    [exactFieldNode], named. *)
Fixpoint exactSelections_loop (rest : list SelectionNode)
    (typeWeights : TypeWeightObject) (variables : Variables)
    (parentName : string) (complexity : Z) : option (result Z) :=
  match rest with
  | [] => Some (Ok complexity)
  | sel :: rest' =>
      andThen (exactSelectionNode sel typeWeights variables parentName)
        (fun c =>
      andThen (number (complexity + c)) (fun complexity' =>
      exactSelections_loop rest' typeWeights variables parentName complexity'))
  end.

Definition exactSelectionsCost (selectionSet : option SelectionSetNode)
    (typeWeights : TypeWeightObject) (variables : Variables)
    (context : string) : option (result Z) :=
  match selectionSet with
  | Some ss =>
      andThen (exactSelectionSetNode ss typeWeights variables context)
        (fun c => number (0 + c))
  | None => number 0
  end.

(** The property names every JavaScript object inherits from
    [Object.prototype].  The walker's [in] test and its reads
    [typeWeights[..]], [fields[..]] and [variables[..]] find these on any
    object, where the maps of this development hold own keys only. *)
Definition inheritedNames : list string :=
  [ "constructor"; "__proto__"; "hasOwnProperty"; "isPrototypeOf";
    "propertyIsEnumerable"; "toString"; "valueOf"; "toLocaleString";
    "__defineGetter__"; "__defineSetter__"; "__lookupGetter__";
    "__lookupSetter__" ].

(** A name that is no inherited property name, neither as written nor
    lowercased. *)
Definition own_name (name : string) : bool :=
  negb (existsb (String.eqb name) inheritedNames) &&
  negb (existsb (String.eqb (toLocaleLowerCase name)) inheritedNames).

Module Examples.

Import TypeComplexityTest.

(** A table whose scalars have weight 1 and whose object has weight 5,
    as a configuration [{ object: 5, scalar: 1 }] yields. *)
Definition weightedScalarsType : Type_ :=
  TypeWeight 5 (list_to_map [("num", Leaf 1); ("id", Leaf 1)]).

Definition weightedScalars : TypeWeightObject :=
  list_to_map [
    ("query", TypeWeight 1 (list_to_map [("scalars", ObjectRef "scalars")]));
    ("scalars", weightedScalarsType)
  ].

(** [scalars { num, id }] *)
Definition scalarsField : FieldNode :=
  Field None "scalars" (Some [])
    (Some (SelectionSet [leaf "num"; leaf "id"])).

(** A rule that never answers below zero. *)
Definition clampedRule : WeightFunction :=
  fun args variables =>
    let* n := multiplierRule slicingKeywords noVariableDefaults None 0
                args variables in
    Ok (Z.max 0 n).

(** A table with a list of scalars, [numbers(first: Int): [Int]]. *)
Definition scalarListTable : TypeWeightObject :=
  list_to_map [
    ("query", TypeWeight 1 (list_to_map [
        ("numbers", BoundedList "int" clampedRule);
        ("version", Leaf 0) ]))
  ].

(** [query { numbers(first: 3) }] *)
Definition numbersQuery : DocumentNode :=
  query [FIELD (Field None "numbers" (Some [Argument "first" (IntValue 3)]) None)].

(** [query { unknown }], a field the table has no descriptor for. *)
Definition unknownFieldQuery : DocumentNode := query [leaf "unknown"].

(** The [reviews] list of the test schema with a rule that never answers
    below zero: [reviews(episode: Episode!, first: Int): [Review]] and
    [type Review { stars: Int!, commentary: String }]. *)
Definition reviewsTable : TypeWeightObject :=
  list_to_map [
    ("query", TypeWeight 1 (list_to_map [
        ("reviews", BoundedList "review" clampedRule) ]));
    ("review", TypeWeight 1 (list_to_map [
        ("stars", Leaf 0); ("commentary", Leaf 0) ]))
  ].

(** [searchResult { id }], a field whose name is a type key only once it
    is lowercased. *)
Definition searchResultField : FieldNode :=
  Field None "searchResult" (Some []) (Some (SelectionSet [leaf "id"])).

(** A document with a fragment definition and a mutation, against a table
    without a [mutation] entry. *)
Definition spreadSelection : SelectionNode := FRAGMENT_SPREAD "comparisonFields".

Definition mutationDefinition : DefinitionNode :=
  OPERATION_DEFINITION MUTATION None
    (Some (SelectionSet [leaf "createReview"])).

(** A table with one object type that refers to itself. *)
Definition nestedScalarsType : Type_ :=
  TypeWeight 1 (list_to_map [("num", Leaf 0); ("id", Leaf 0)]).

Definition nestedScalarsTable : TypeWeightObject :=
  list_to_map [
    ("query", TypeWeight 1 ∅);
    ("scalars", nestedScalarsType)
  ].

End Examples.

(** ** Documents up to aliases *)

(** The node with every alias removed, at any depth. *)
Fixpoint unalias_field (node : FieldNode) : FieldNode :=
  match node with
  | Field _ name arguments selectionSet =>
      Field None name arguments
        match selectionSet with
        | Some ss => Some (unalias_set ss)
        | None => None
        end
  end
with unalias_selection (node : SelectionNode) : SelectionNode :=
  match node with
  | FIELD f => FIELD (unalias_field f)
  | FRAGMENT_SPREAD name => FRAGMENT_SPREAD name
  | INLINE_FRAGMENT tc ss => INLINE_FRAGMENT tc (unalias_set ss)
  end
with unalias_set (node : SelectionSetNode) : SelectionSetNode :=
  match node with
  | SelectionSet selections =>
      SelectionSet
        ((fix go (l : list SelectionNode) : list SelectionNode :=
            match l with
            | [] => []
            | sel :: l' => unalias_selection sel :: go l'
            end) selections)
  end.

Definition unalias_definition (d : DefinitionNode) : DefinitionNode :=
  match d with
  | OPERATION_DEFINITION operation name selectionSet =>
      OPERATION_DEFINITION operation name
        match selectionSet with
        | Some ss => Some (unalias_set ss)
        | None => None
        end
  | FRAGMENT_DEFINITION name tc ss => FRAGMENT_DEFINITION name tc (unalias_set ss)
  | TYPE_SYSTEM_DEFINITION name => TYPE_SYSTEM_DEFINITION name
  end.

Definition unalias_document (node : DocumentNode) : DocumentNode :=
  Document (map unalias_definition (definitions node)).

(** ** Setting the middleware up, [src/middleware/rateLimiterSetup.ts] and
    lines 38 to 60 of [src/middleware/index.ts] *)

Module Setup.

(** What a configuration says about the rate limiter; [type] is kept a
    string so that the [default] case of the [switch] is reachable. *)
Record RateLimiterConfig : Type := {
  type : string;
  bucketSize : Z;
  refillRate : Z
}.

(** The outcome of a set-up step: the value built, or [throw new Error(message)]. *)
Inductive Built (A : Type) : Type :=
| Done (a : A)
| SetupError (message : string).
Arguments Done {A} a.
Arguments SetupError {A} message.

(** Numbers as the operand of [||]: [undefined] and 0 are falsy. *)
Definition or_number (configured : option Z) (otherwise : Z) : Z :=
  match configured with
  | Some n => if n =? 0 then otherwise else n
  | None => otherwise
  end.

(** Booleans as the operand of [|| false]. *)
Definition or_false (configured : option bool) : bool :=
  match configured with
  | Some b => b
  | None => false
  end.

(** [depthLimit || Infinity] *)
Inductive DepthLimit : Type :=
| AtMost (depth : Z)
| Infinity.

Definition or_Infinity (configured : option Z) : DepthLimit :=
  match configured with
  | Some n => if n =? 0 then Infinity else AtMost n
  | None => Infinity
  end.

Section WithRedis.

(** The redis client and its connection options are opaque to the
    middleware. *)
Variables (Redis RedisOptions : Type).
Variable noOptions : RedisOptions.

(** [new TokenBucket(bucketSize, refillRate, client, keyExpiry)] *)
Inductive RateLimiter : Type :=
| TokenBucket (bucketSize refillRate : Z) (client : Redis) (keyExpiry : Z).

(** [setupRateLimiter], lines 14 to 46. *)
Definition setupRateLimiter (rateLimiter : RateLimiterConfig) (client : Redis)
    (keyExpiry : Z) : Built RateLimiter :=
  if String.eqb (type rateLimiter) "TOKEN_BUCKET" then
    Done (TokenBucket (bucketSize rateLimiter) (refillRate rateLimiter)
            client keyExpiry)
  else if String.eqb (type rateLimiter) "LEAKY_BUCKET" then
    SetupError "Leaky Bucket algonithm has not be implemented."
  else if String.eqb (type rateLimiter) "FIXED_WINDOW" then
    SetupError "Fixed Window algonithm has not be implemented."
  else if String.eqb (type rateLimiter) "SLIDING_WINDOW_LOG" then
    SetupError "Sliding Window Log has not be implemented."
  else if String.eqb (type rateLimiter) "SLIDING_WINDOW_COUNTER" then
    SetupError "Sliding Window Counter algonithm has not be implemented."
  else
    SetupError "Selected rate limiting algorithm is not suppported".

(** [ExpressMiddlewareConfig]: everything but the rate limiter is optional. *)
Record RedisConfig : Type := {
  keyExpiry : option Z;
  options : option RedisOptions
}.

Record ExpressMiddlewareConfig : Type := {
  rateLimiter : RateLimiterConfig;
  typeWeights : option (gmap string Z);
  redis : option RedisConfig;
  dark : option bool;
  enforceBoundedLists : option bool;
  depthLimit : option Z
}.

(** [ExpressMiddlewareSet]: the configuration with the defaults filled in. *)
Record ExpressMiddlewareSet : Type := {
  set_rateLimiter : RateLimiterConfig;
  set_typeWeights : gmap string Z;
  set_keyExpiry : Z;
  set_options : RedisOptions;
  set_dark : bool;
  set_enforceBoundedLists : bool;
  set_depthLimit : DepthLimit
}.

(** [defaultTypeWeightsConfig] is imported from the weight-table builder. *)
Variable defaultTypeWeightsConfig : gmap string Z.

(** [const middlewareSetup = { ... }], lines 38 to 48.  A spread of two
    objects keeps the value of the later one for a key both have. *)
Definition middlewareSetup (middlewareConfig : ExpressMiddlewareConfig)
    : ExpressMiddlewareSet :=
  {| set_rateLimiter := rateLimiter middlewareConfig;
     set_typeWeights :=
       default ∅ (typeWeights middlewareConfig) ∪ defaultTypeWeightsConfig;
     set_keyExpiry :=
       or_number (redis middlewareConfig ≫= keyExpiry) 86400000;
     set_options := default noOptions (redis middlewareConfig ≫= options);
     set_dark := or_false (dark middlewareConfig);
     set_enforceBoundedLists := or_false (enforceBoundedLists middlewareConfig);
     set_depthLimit := or_Infinity (depthLimit middlewareConfig) |}.

(** The rate limiter the middleware is built with, lines 56 to 60. *)
Definition rateLimiterOf (middlewareConfig : ExpressMiddlewareConfig)
    (redisClient : Redis) : Built RateLimiter :=
  let middlewareSetup := middlewareSetup middlewareConfig in
  setupRateLimiter (set_rateLimiter middlewareSetup) redisClient
    (set_keyExpiry middlewareSetup).

End WithRedis.

Arguments keyExpiry {RedisOptions} r.
Arguments options {RedisOptions} r.
Arguments rateLimiter {RedisOptions} e.
Arguments typeWeights {RedisOptions} e.
Arguments redis {RedisOptions} e.
Arguments dark {RedisOptions} e.
Arguments enforceBoundedLists {RedisOptions} e.
Arguments depthLimit {RedisOptions} e.
Arguments set_rateLimiter {RedisOptions} e.
Arguments set_typeWeights {RedisOptions} e.
Arguments set_keyExpiry {RedisOptions} e.
Arguments set_options {RedisOptions} e.
Arguments set_dark {RedisOptions} e.
Arguments set_enforceBoundedLists {RedisOptions} e.
Arguments set_depthLimit {RedisOptions} e.
Arguments TokenBucket {Redis} bucketSize refillRate client keyExpiry.
Arguments setupRateLimiter {Redis} rateLimiter client keyExpiry.
Arguments middlewareSetup {RedisOptions} noOptions defaultTypeWeightsConfig middlewareConfig.
Arguments rateLimiterOf {Redis RedisOptions} noOptions defaultTypeWeightsConfig middlewareConfig redisClient.

End Setup.

(** ** The express handler up to [await throttledProcess(...)], lines 123 to
    155 of [src/middleware/index.ts] *)

Module Handler.

Import Middleware.

(** [req.body] and the parts of the request the handler reads.  [ips] is
    [None] when [req.ips] is undefined; an array, even an empty one, is
    truthy. *)
Record Body : Type := {
  query : option string;
  variables : option Variables
}.

Record Request : Type := {
  body : Body;
  ips : option (list string);
  ip : string
}.

(** [!query]: the query is undefined or the empty string. *)
Definition no_query (query : option string) : bool :=
  match query with
  | None => true
  | Some EmptyString => true
  | Some _ => false
  end.

(** [const ip = req.ips ? req.ips[0] : req.ip]; [None] is [undefined]. *)
Definition clientIp (req : Request) : option string :=
  match ips req with
  | Some addresses => head addresses
  | None => Some (ip req)
  end.

(** A value used as a property key, as in [requestQueue[userId]]:
    [undefined] is the key ["undefined"]. *)
Definition propertyKey (userId : option string) : string :=
  default "undefined" userId.

(** How the handler stands when it first suspends or returns:
    - [PassedOn]: it returned [next()] without looking at the request;
    - [Thrown]: [parse] or the analysis threw, outside the [try] block, so
      the handler's promise rejects and [next] is not called;
    - [Awaits]: it called [throttledProcess] and awaits the answer.
    [errors] holds the payload of [res.status(400).json({ errors })] when
    that was sent. *)
Inductive Begun : Type :=
| PassedOn
| Thrown (res : Response) (errors : option (list string)) (e : exn)
| Awaits (res : Response) (errors : option (list string)) (c : Call).

Section WithSchema.

(** [parse] and [validate(schema, _)] of graphql-js, and the analysis
    [getQueryTypeComplexity(_, _, typeWeightObject)] with the table built
    at set-up. *)
Variable parse : string -> result DocumentNode.
Variable validate : DocumentNode -> list string.
Variable getQueryTypeComplexity : DocumentNode -> option Variables -> result Z.

(** The handler of request number [who] at time [requestTimestamp]. *)
Definition beginRequest (who : nat) (requestTimestamp : Z) (req : Request)
    (res : Response) : Begun :=
  if no_query (query (body req)) then PassedOn
  else
    let ip := clientIp req in
    match parse (default "" (query (body req))) with
    | Throw e => Thrown res None e
    | Ok queryAST =>
      let validationErrors := validate queryAST in
      let res1 :=
        if (0 <? length validationErrors)%nat then status 400 res else res in
      let errors :=
        if (0 <? length validationErrors)%nat then Some validationErrors
        else None in
      match getQueryTypeComplexity queryAST (variables (body req)) with
      | Throw e => Thrown res1 errors e
      | Ok queryComplexity =>
          Awaits res1 errors
            {| caller := who;
               userId := propertyKey ip;
               timestamp := requestTimestamp;
               cost := queryComplexity |}
      end
    end.

End WithSchema.

End Handler.

(** ** Bookkeeping of the serializer *)

Module Serializer.

Import Middleware.

(** What the serializer has been asked so far: the bucket outcomes of a
    trace, in the order they came. *)
Definition outcomes (evs : list Event) : list (nat * result RateLimiterResponse) :=
  flat_map (fun ev => match ev with
                      | Arrives _ => []
                      | Settles who outcome => [(who, outcome)]
                      end) evs.

(** The listeners that wait for a call of one client. *)
Definition waitingFor (user : string) (st : State) : list (string * Call) :=
  List.filter (fun l => String.eqb (userId (snd l)) user) (requestEvents st).

(** Every suspended or waiting call of a client has a token in the
    client's queue. *)
Definition tokens_cover (st : State) : Prop :=
  forall u,
    (length (inFlightFor u st) + length (waitingFor u st)
     <= length (default [] (requestQueue st !! u)))%nat.

End Serializer.

(** ** Induction over the mutually defined nodes *)

Section NodeInduction.

Variables (P : SelectionNode -> Prop) (Q : FieldNode -> Prop)
          (R : SelectionSetNode -> Prop).

Hypothesis on_field : forall f, Q f -> P (FIELD f).
Hypothesis on_spread : forall name, P (FRAGMENT_SPREAD name).
Hypothesis on_inline : forall tc ss, R ss -> P (INLINE_FRAGMENT tc ss).
Hypothesis on_Field : forall alias name args ss,
  match ss with Some s => R s | None => True end ->
  Q (Field alias name args ss).
Hypothesis on_set : forall sels, Forall P sels -> R (SelectionSet sels).

Fixpoint SelectionNode_induction (n : SelectionNode) : P n :=
  match n with
  | FIELD f => on_field f (FieldNode_induction f)
  | FRAGMENT_SPREAD name => on_spread name
  | INLINE_FRAGMENT tc ss => on_inline tc ss (SelectionSetNode_induction ss)
  end
with FieldNode_induction (f : FieldNode) : Q f :=
  match f with
  | Field alias name args ss =>
      on_Field alias name args ss
        (match ss as o return match o with Some s => R s | None => True end with
         | Some s => SelectionSetNode_induction s
         | None => I
         end)
  end
with SelectionSetNode_induction (s : SelectionSetNode) : R s :=
  match s with
  | SelectionSet sels =>
      on_set sels
        ((fix all (l : list SelectionNode) : Forall P l :=
            match l with
            | [] => @List.Forall_nil _ P
            | x :: l' => @List.Forall_cons _ P x l' (SelectionNode_induction x) (all l')
            end) sels)
  end.

End NodeInduction.

(** * Properties of the walker *)

(** ** Equations of the walker *)

Lemma bind_Ok {A B : Type} (r : result A) (k : A -> result B) (b : B) :
  bind r k = Ok b <-> exists a, r = Ok a /\ k a = Ok b.
Proof.
  destruct r as [a|e]; simpl; split.
  - intros H. exists a. split; [reflexivity | exact H].
  - intros (a' & Ha & Hk). inversion Ha. subst. exact Hk.
  - discriminate.
  - intros (a' & Ha & _). discriminate.
Qed.

Lemma selectionSetNode_unfold sels tw v p :
  selectionSetNode (SelectionSet sels) tw v p = selections_loop sels tw v p 0.
Proof.
  simpl. generalize 0.
  induction sels as [|x rest IH]; intros acc; simpl; [reflexivity|].
  destruct (selectionNode x tw v p); simpl; [apply IH | reflexivity].
Qed.

Lemma selectionNode_FIELD f tw v p :
  selectionNode (FIELD f) tw v p = fieldNode f tw v p.
Proof.
  simpl. destruct (fieldNode f tw v p); reflexivity.
Qed.

Lemma fieldNode_object_branch alias name args ss tw v p type :
  has_key (toLocaleLowerCase name) tw = true ->
  tw !! name = Some type ->
  fieldNode (Field alias name args ss) tw v p =
    let* s := selectionsCost ss tw v name in Ok (combine s (weight type)).
Proof.
  intros Hkey Htype. simpl. rewrite Hkey, Htype. reflexivity.
Qed.

Lemma fieldNode_leaf alias name args ss tw v p parent w :
  has_key (toLocaleLowerCase name) tw = false ->
  tw !! p = Some parent ->
  fields parent !! name = Some (Leaf w) ->
  fieldNode (Field alias name args ss) tw v p = Ok w.
Proof.
  intros Hkey Hp Hf. simpl. rewrite Hkey, Hp, Hf. reflexivity.
Qed.

(** What the list branch computes: the selection set is costed with the
    name of the field itself as the parent. *)
Lemma fieldNode_list_branch alias name args ss tw v p parent resolveTo rule :
  has_key (toLocaleLowerCase name) tw = false ->
  tw !! p = Some parent ->
  fields parent !! name = Some (BoundedList resolveTo rule) ->
  fieldNode (Field alias name (Some args) ss) tw v p =
    let* s := selectionsCost ss tw v name in
    let* m := rule args (v !! name) in
    Ok (combine s m).
Proof.
  intros Hkey Hp Hf. simpl. rewrite Hkey, Hp, Hf. unfold selectionsCost.
  destruct ss as [s|]; simpl.
  - destruct (selectionSetNode s tw v name); simpl; [|reflexivity].
    destruct (rule args (v !! name)); reflexivity.
  - destruct (rule args (v !! name)); reflexivity.
Qed.

Lemma fieldNode_unfold alias name args ss tw v p :
  fieldNode (Field alias name args ss) tw v p =
    if has_key (toLocaleLowerCase name) tw then
      match tw !! name with
      | None => Throw (UndefinedType name)
      | Some type =>
          let* s := selectionsCost ss tw v name in
          Ok (combine s (weight type))
      end
    else
      match tw !! p with
      | None => Throw (UndefinedType p)
      | Some parent =>
        match fields parent !! name with
        | Some (Leaf w) => Ok (0 + w)
        | fw =>
          let* s := selectionsCost ss tw v name in
          let* m :=
            match args with
            | Some a =>
                match fw with
                | Some (BoundedList _ rule) =>
                    let* w := rule a (v !! name) in Ok (0 + w)
                | _ => Throw (NotAFunction p name)
                end
            | None => Ok 0
            end in
          Ok (combine s m)
        end
      end.
Proof. reflexivity. Qed.

Lemma selections_loop_acc sels tw v p acc :
  selections_loop sels tw v p acc =
    let* n := selections_loop sels tw v p 0 in Ok (acc + n).
Proof.
  revert acc. induction sels as [|x rest IH]; intros acc; simpl.
  - f_equal. lia.
  - destruct (selectionNode x tw v p) as [c|e]; simpl; [|reflexivity].
    rewrite (IH (acc + c)), (IH (0 + c)).
    destruct (selections_loop rest tw v p 0); simpl; [f_equal; lia | reflexivity].
Qed.

Lemma selections_loop_app before after tw v p acc :
  selections_loop (before ++ after) tw v p acc =
    let* n := selections_loop before tw v p acc in
    selections_loop after tw v p n.
Proof.
  revert acc. induction before as [|x rest IH]; intros acc; simpl; [reflexivity|].
  destruct (selectionNode x tw v p) as [c|e]; simpl; [apply IH | reflexivity].
Qed.

Lemma documentNode_loop_app before after tw v acc :
  documentNode_loop (before ++ after) tw v acc =
    let* n := documentNode_loop before tw v acc in
    documentNode_loop after tw v n.
Proof.
  revert acc. induction before as [|x rest IH]; intros acc; simpl; [reflexivity|].
  destruct (definitionNode x tw v) as [c|e]; simpl; [apply IH | reflexivity].
Qed.

Lemma lower_operation_string op :
  toLocaleLowerCase (operation_string op) = operation_string op.
Proof. destruct op; reflexivity. Qed.

Lemma has_key_false {A : Type} key (m : gmap string A) :
  has_key key m = false <-> m !! key = None.
Proof.
  unfold has_key. destruct (m !! key); split; congruence.
Qed.

Lemma combine_nonneg s w : 0 <= s -> 0 <= w -> 0 <= combine s w.
Proof.
  intros Hs Hw. unfold combine. destruct (s <=? 1); [lia | nia].
Qed.

(** ** Costs are never negative *)

Section Nonneg.

Variables (tw : TypeWeightObject) (v : Variables).
Hypothesis table_nonneg : nonneg_table tw.

Lemma selections_loop_nonneg sels p acc :
  Forall (fun sel => forall p, nonneg_result (selectionNode sel tw v p)) sels ->
  0 <= acc ->
  nonneg_result (selections_loop sels tw v p acc).
Proof.
  intros Hall. revert acc.
  induction Hall as [|x rest Hx _ IH]; intros acc Hacc; simpl; [exact Hacc|].
  specialize (Hx p). destruct (selectionNode x tw v p) as [c|e]; simpl; [|exact I].
  apply IH. simpl in Hx. lia.
Qed.

Lemma selectionsCost_nonneg ss ctx :
  match ss with
  | Some s => forall p, nonneg_result (selectionSetNode s tw v p)
  | None => True
  end ->
  nonneg_result (selectionsCost ss tw v ctx).
Proof.
  destruct ss as [s|]; simpl; [|lia].
  intros H. specialize (H ctx).
  destruct (selectionSetNode s tw v ctx); simpl in *; [lia | exact I].
Qed.

Lemma walker_nonneg :
  (forall sel p, nonneg_result (selectionNode sel tw v p)) /\
  (forall f p, nonneg_result (fieldNode f tw v p)) /\
  (forall ss p, nonneg_result (selectionSetNode ss tw v p)).
Proof.
  pose (P := fun sel => forall p, nonneg_result (selectionNode sel tw v p)).
  pose (Q := fun f => forall p, nonneg_result (fieldNode f tw v p)).
  pose (R := fun ss => forall p, nonneg_result (selectionSetNode ss tw v p)).
  assert (HQ : forall f, Q f).
  { apply (FieldNode_induction P Q R); unfold P, Q, R.
    - intros f IH p. rewrite selectionNode_FIELD. apply IH.
    - intros name p. simpl. lia.
    - intros tc ss _ p. simpl. lia.
    - intros alias name args ss IH p. rewrite fieldNode_unfold.
      pose proof (selectionsCost_nonneg ss name IH) as Hs.
      destruct (has_key (toLocaleLowerCase name) tw).
      + destruct (tw !! name) as [type|] eqn:Htype; [|exact I].
        destruct (selectionsCost ss tw v name) as [s|e]; simpl; [|exact I].
        apply combine_nonneg; [exact Hs|].
        apply (table_nonneg _ _ Htype).
      + destruct (tw !! p) as [parent|] eqn:Hparent; [|exact I].
        pose proof (table_nonneg _ _ Hparent) as [_ Hfields].
        destruct (fields parent !! name) as [fw|] eqn:Hfw.
        * pose proof (Hfields _ _ Hfw) as Hnn.
          destruct fw as [w|r|r rule]; simpl in Hnn.
          -- simpl. lia.
          -- destruct (selectionsCost ss tw v name) as [s|e]; simpl; [|exact I].
             destruct args; simpl; exact I || (apply combine_nonneg; [exact Hs | lia]).
          -- destruct (selectionsCost ss tw v name) as [s|e]; simpl; [|exact I].
             destruct args as [a|]; simpl.
             ++ destruct (rule a (v !! name)) as [m|e] eqn:Hm; simpl; [|exact I].
                apply combine_nonneg; [exact Hs|]. specialize (Hnn _ _ _ Hm). lia.
             ++ apply combine_nonneg; [exact Hs | lia].
        * destruct (selectionsCost ss tw v name) as [s|e]; simpl; [|exact I].
          destruct args; simpl; exact I || (apply combine_nonneg; [exact Hs | lia]).
    - intros sels IH p. rewrite selectionSetNode_unfold.
      apply selections_loop_nonneg; [exact IH | lia]. }
  assert (HR : forall ss, R ss).
  { intros [sels] p. rewrite selectionSetNode_unfold.
    apply selections_loop_nonneg; [|lia].
    apply Forall_forall. intros [f| |] _ p'; try (simpl; lia).
    rewrite selectionNode_FIELD. apply HQ. }
  split; [|split; [exact HQ | exact HR]].
  intros [f| |] p; try (simpl; lia). rewrite selectionNode_FIELD. apply HQ.
Qed.

End Nonneg.

(** ** The variables the walker reads *)

Lemma names_of_set_unfold sels :
  names_of_set (SelectionSet sels) = concat (map names_of_selection sels).
Proof.
  simpl. induction sels as [|x rest IH]; simpl; [reflexivity|].
  rewrite IH. reflexivity.
Qed.

Lemma agree_on_app l1 l2 v1 v2 :
  agree_on (l1 ++ l2) v1 v2 <-> agree_on l1 v1 v2 /\ agree_on l2 v1 v2.
Proof.
  unfold agree_on. split.
  - intros H. split; intros x Hx; apply H; apply in_or_app; auto.
  - intros [H1 H2] x Hx. apply in_app_or in Hx. destruct Hx; auto.
Qed.

Section VariablesRead.

Variables (tw : TypeWeightObject) (v1 v2 : Variables).

Lemma selections_loop_agree sels p acc :
  Forall (fun sel => forall p, agree_on (names_of_selection sel) v1 v2 ->
            selectionNode sel tw v1 p = selectionNode sel tw v2 p) sels ->
  agree_on (concat (map names_of_selection sels)) v1 v2 ->
  selections_loop sels tw v1 p acc = selections_loop sels tw v2 p acc.
Proof.
  intros Hall. revert acc.
  induction Hall as [|x rest Hx _ IH]; intros acc Hagree; simpl; [reflexivity|].
  simpl in Hagree. apply agree_on_app in Hagree as [Hhere Hrest].
  rewrite (Hx p Hhere).
  destruct (selectionNode x tw v2 p); simpl; [apply IH; exact Hrest | reflexivity].
Qed.

(** The walker reads [variables] only under the names of the fields it
    visits. *)
Lemma fieldNode_agree f p :
  agree_on (names_of_field f) v1 v2 ->
  fieldNode f tw v1 p = fieldNode f tw v2 p.
Proof.
  revert p.
  apply (FieldNode_induction
    (fun sel => forall p, agree_on (names_of_selection sel) v1 v2 ->
       selectionNode sel tw v1 p = selectionNode sel tw v2 p)
    (fun f => forall p, agree_on (names_of_field f) v1 v2 ->
       fieldNode f tw v1 p = fieldNode f tw v2 p)
    (fun ss => forall p, agree_on (names_of_set ss) v1 v2 ->
       selectionSetNode ss tw v1 p = selectionSetNode ss tw v2 p)).
  - intros g IH p H. rewrite !selectionNode_FIELD. apply IH. exact H.
  - reflexivity.
  - reflexivity.
  - intros alias name args ss IH p H.
    assert (Hname : v1 !! name = v2 !! name) by (apply H; left; reflexivity).
    assert (Hs : selectionsCost ss tw v1 name = selectionsCost ss tw v2 name).
    { destruct ss as [s|]; simpl; [|reflexivity].
      rewrite (IH name); [reflexivity|].
      intros x Hx. apply H. right. exact Hx. }
    rewrite !fieldNode_unfold, Hs, Hname. reflexivity.
  - intros sels IH p H. rewrite !selectionSetNode_unfold.
    apply selections_loop_agree; [exact IH|].
    rewrite <- names_of_set_unfold. exact H.
Qed.

Lemma selectionSetNode_agree ss p :
  agree_on (names_of_set ss) v1 v2 ->
  selectionSetNode ss tw v1 p = selectionSetNode ss tw v2 p.
Proof.
  destruct ss as [sels]. intros H. rewrite !selectionSetNode_unfold.
  apply selections_loop_agree; [|rewrite <- names_of_set_unfold; exact H].
  apply Forall_forall. intros [f| |] _ q Hq; try reflexivity.
  rewrite !selectionNode_FIELD. apply fieldNode_agree. exact Hq.
Qed.

Lemma definitionNode_agree d :
  agree_on (names_of_definition d) v1 v2 ->
  definitionNode d tw v1 = definitionNode d tw v2.
Proof.
  destruct d as [op name [ss|]| |]; try reflexivity.
  intros H. simpl.
  rewrite (selectionSetNode_agree ss (operation_string op) H). reflexivity.
Qed.

Lemma documentNode_agree doc :
  agree_on (names_of_document doc) v1 v2 ->
  documentNode doc tw v1 = documentNode doc tw v2.
Proof.
  destruct doc as [ds]. unfold documentNode, names_of_document. simpl.
  generalize 0. induction ds as [|d rest IH]; intros acc H; simpl; [reflexivity|].
  simpl in H. apply agree_on_app in H as [Hd Hrest].
  rewrite (definitionNode_agree d Hd).
  destruct (definitionNode d tw v2); simpl; [apply IH; exact Hrest | reflexivity].
Qed.

End VariablesRead.

(** ** The scenarios of the test suite the walker does compute *)

Example oneField_cost :
  documentNode TypeComplexityTest.oneField TypeComplexityTest.typeWeights ∅ = Ok 2.
Proof. vm_compute. reflexivity. Qed.

(** [query { scalars { num, test { name, scalars { id } } } }]: the inner
    costs add up to 2, which the rule of line 59 then multiplies by the
    weight 1 of [scalars] instead of adding it (the test suite expects 4). *)
Example multipleLevels_cost :
  documentNode TypeComplexityTest.multipleLevels TypeComplexityTest.typeWeights ∅
    = Ok 3.
Proof. vm_compute. reflexivity. Qed.

Example aliases_cost :
  documentNode TypeComplexityTest.aliases TypeComplexityTest.typeWeights ∅ = Ok 3.
Proof. vm_compute. reflexivity. Qed.

(** ** Bounded lists *)

(** A bounded list whose name is no type key and that selects a field
    which is no type key either cannot be costed: the selected field is
    looked up in [typeWeights[name]], the entry of the list's own name. *)
Lemma bounded_list_with_plain_field_throws
    alias name args tw v p parent fw calias cname cargs css rest :
  has_key (toLocaleLowerCase name) tw = false ->
  tw !! p = Some parent ->
  fields parent !! name = Some fw ->
  (forall w, fw <> Leaf w) ->
  tw !! name = None ->
  has_key (toLocaleLowerCase cname) tw = false ->
  fieldNode
    (Field alias name args
       (Some (SelectionSet (FIELD (Field calias cname cargs css) :: rest))))
    tw v p = Throw (UndefinedType name).
Proof.
  intros Hkey Hp Hfw Hnotleaf Hname Hckey.
  rewrite fieldNode_unfold, Hkey, Hp, Hfw.
  assert (Hs : selectionsCost
            (Some (SelectionSet (FIELD (Field calias cname cargs css) :: rest)))
            tw v name = Throw (UndefinedType name)).
  { unfold selectionsCost. rewrite selectionSetNode_unfold. cbn [selections_loop].
    rewrite selectionNode_FIELD, fieldNode_unfold, Hckey, Hname. reflexivity. }
  rewrite Hs. destruct fw as [w| |]; [exfalso; apply (Hnotleaf w) |..]; reflexivity.
Qed.

(** C1, at [reviews(episode: EMPIRE, first: 3) { stars, commentary }] under
    [query] with the table of the test suite: the specification's
    contribution, with the selection set costed in the context of the
    element type [review], is 0 + 3; [fieldNode] costs the selection set in
    the context [reviews], the field's own name, and throws because the
    table has no such type, and so does the analysis of the whole query. *)
Theorem bounded_list_costed_under_field_name :
  TypeComplexityTest.typeWeights !! "query" ≫= (fun t => fields t !! "reviews")
    = Some (BoundedList "review" TypeComplexityTest.firstRule) /\
  listContribution_spec TypeComplexityTest.reviewsField "review"
    TypeComplexityTest.firstRule TypeComplexityTest.typeWeights ∅ = Ok 3 /\
  fieldNode TypeComplexityTest.reviewsField TypeComplexityTest.typeWeights ∅ "query"
    = Throw (UndefinedType "reviews") /\
  documentNode TypeComplexityTest.boundedList TypeComplexityTest.typeWeights ∅
    = Throw (UndefinedType "reviews").
Proof. repeat split; vm_compute; reflexivity. Qed.

(** C2, the nested lists of the test suite:
    [query { human(id: 1) { name, friends(first: 5) { name,
    friends(first: 3) { name } } } }] with no variables.  The walker does
    not return 22: it throws when it looks [name] up in
    [typeWeights["friends"]]. *)
Theorem nested_lists_query_throws :
  documentNode TypeComplexityTest.nestedLists TypeComplexityTest.typeWeights ∅
    = Throw (UndefinedType "friends").
Proof. vm_compute. reflexivity. Qed.

(** Handed the variables object itself, the modelled rule does resolve a
    variable reference, and an entry the argument does not refer to plays
    no role. *)
Lemma multiplierRule_resolves_reference
    keywords variableDefault argumentDefault fallback args a varName entries n :
  List.find (fun a => is_keyword keywords (arg_name a)) args = Some a ->
  arg_value a = VariableNode varName ->
  assoc varName entries = Some (VInt n) ->
  multiplierRule keywords variableDefault argumentDefault fallback args
    (Some (VObj entries)) = Ok n.
Proof.
  intros Hfind Hvalue Hentry. unfold multiplierRule.
  rewrite Hfind, Hvalue, Hentry. reflexivity.
Qed.

Example heroes_rule_on_the_variables_object :
  multiplierRule slicingKeywords noVariableDefaults None 0
    [Argument "episode" (EnumValue "NEWHOPE");
     Argument "first" (VariableNode "items")]
    (Some (VObj [("items", VInt 7); ("first", VInt 4)])) = Ok 7.
Proof. reflexivity. Qed.

(** C3, at [query ($items: Int) { heroes(episode: NEWHOPE, first: $items)
    { stars, episode } }] with [{ items: 7, first: 4 }]: the walker does
    not return 8, it throws; and whatever the table and its rules are, the
    value of [items] cannot change the outcome, because a rule is only
    handed [variables["heroes"]], never the entry the argument refers to.
    The entry [first], which the field does not refer to, cannot change
    the outcome either. *)
Theorem variable_slicing_argument_not_resolved :
  documentNode WeightFunctionTest.variableQuery WeightFunctionTest.typeWeights
    WeightFunctionTest.variables = Throw (UndefinedType "heroes") /\
  (forall (tw : TypeWeightObject) (v : Variables) (items : Value),
     documentNode WeightFunctionTest.variableQuery tw (<["items" := items]> v)
     = documentNode WeightFunctionTest.variableQuery tw v) /\
  (forall (tw : TypeWeightObject) (v : Variables) (first : Value),
     documentNode WeightFunctionTest.variableQuery tw (<["first" := first]> v)
     = documentNode WeightFunctionTest.variableQuery tw v).
Proof.
  split; [vm_compute; reflexivity|].
  split; intros tw v x; apply documentNode_agree;
    intros name Hname; apply lookup_insert_ne;
    vm_compute in Hname;
    destruct Hname as [<-|[<-|[<-|[]]]]; discriminate.
Qed.

(** ** Fields named after a type *)

Lemma selections_loop_leaves sels tw v name type acc :
  tw !! name = Some type ->
  Forall (leaf_of tw type 0) sels ->
  selections_loop sels tw v name acc = Ok acc.
Proof.
  intros Htype Hall. revert acc.
  induction Hall as [|x rest Hx _ IH]; intros acc; simpl; [reflexivity|].
  destruct x as [[calias cname cargs css]| |]; simpl in Hx; try contradiction.
  destruct Hx as [Hkey Hleaf].
  rewrite selectionNode_FIELD.
  rewrite (fieldNode_leaf calias cname cargs css tw v name type 0 Hkey Htype Hleaf).
  simpl. rewrite Z.add_0_r. apply IH.
Qed.




(** The lookup of the object branch uses the name as written: a field
    whose name is a type key only once lowercased throws. *)
Example object_branch_is_case_sensitive :
  has_key (toLocaleLowerCase "searchResult") TypeComplexityTest.typeWeights = true /\
  fieldNode Examples.searchResultField TypeComplexityTest.typeWeights ∅ "query"
    = Throw (UndefinedType "searchResult").
Proof. split; vm_compute; reflexivity. Qed.

(** ** The result of an analysis *)

Lemma scalarListTable_nonneg : nonneg_table Examples.scalarListTable.
Proof.
  unfold nonneg_table, Examples.scalarListTable. simpl.
  apply map_Forall_insert_2; [|apply map_Forall_empty].
  split; [simpl; lia|]. simpl.
  apply map_Forall_insert_2;
    [|apply map_Forall_insert_2; [simpl; lia | apply map_Forall_empty]].
  intros args variables n. unfold Examples.clampedRule.
  destruct (multiplierRule _ _ _ _ args variables); simpl; [|discriminate].
  intros [= <-]. lia.
Qed.

Lemma reviewsTable_nonneg : nonneg_table Examples.reviewsTable.
Proof.
  assert (Hrule : nonneg_field (BoundedList "review" Examples.clampedRule)).
  { intros args variables n. unfold Examples.clampedRule.
    destruct (multiplierRule _ _ _ _ args variables); simpl; [|discriminate].
    intros [= <-]. lia. }
  unfold nonneg_table, Examples.reviewsTable. simpl.
  apply map_Forall_insert_2; [|apply map_Forall_insert_2; [|apply map_Forall_empty]].
  - split; [simpl; lia|]. simpl.
    apply map_Forall_insert_2; [exact Hrule | apply map_Forall_empty].
  - split; [simpl; lia|]. simpl.
    repeat (apply map_Forall_insert_2; [simpl; lia|]). apply map_Forall_empty.
Qed.

(** C5: with tables whose weights and rule results are all non-negative,
    [documentNode] returns no number at all for two queries.  For the
    valid query [query { reviews(episode: EMPIRE, first: 3) { stars,
    commentary } }] the selections of the list are looked up under the
    type key [reviews], which the table does not have, and the read of
    its [fields] throws.  For [query { unknown }] the table has no
    descriptor for the field, and what was read in its place is called as
    a function: the case the source marks as a bug at the call. *)
Theorem documentNode_throws_under_nonneg_tables :
  nonneg_table Examples.reviewsTable /\
  documentNode TypeComplexityTest.boundedList Examples.reviewsTable ∅
    = Throw (UndefinedType "reviews") /\
  nonneg_table Examples.scalarListTable /\
  documentNode Examples.unknownFieldQuery Examples.scalarListTable ∅
    = Throw (NotAFunction "query" "unknown").
Proof.
  split; [exact reviewsTable_nonneg|].
  split; [vm_compute; reflexivity|].
  split; [exact scalarListTable_nonneg | vm_compute; reflexivity].
Qed.

(** ** Nodes the walker has no case for *)

Lemma selectionNode_not_a_field sel tw v p :
  not_a_field sel -> selectionNode sel tw v p = Ok 0.
Proof. destruct sel; simpl; [contradiction | reflexivity | reflexivity]. Qed.

Lemma definitionNode_not_costed d tw v :
  not_costed tw d -> definitionNode d tw v = Ok 0.
Proof.
  destruct d as [op name ss| |]; simpl; try reflexivity.
  intros Hnone. rewrite lower_operation_string.
  apply has_key_false in Hnone. rewrite Hnone. reflexivity.
Qed.

(** C10: a fragment spread or an inline fragment among the selections, and
    a definition that is no operation or whose operation kind is no key of
    the table, evaluate to 0 without an exception, and taking them out of
    the selection set or of the document leaves the outcome unchanged. *)
Theorem uncovered_nodes_contribute_zero sel d tw v p :
  not_a_field sel ->
  not_costed tw d ->
  selectionNode sel tw v p = Ok 0 /\
  definitionNode d tw v = Ok 0 /\
  (forall before after,
     selectionSetNode (SelectionSet (before ++ sel :: after)) tw v p =
     selectionSetNode (SelectionSet (before ++ after)) tw v p) /\
  (forall before after,
     documentNode (Document (before ++ d :: after)) tw v =
     documentNode (Document (before ++ after)) tw v).
Proof.
  intros Hsel Hd.
  pose proof (selectionNode_not_a_field sel tw v p Hsel) as Hs0.
  pose proof (definitionNode_not_costed d tw v Hd) as Hd0.
  repeat split; try assumption.
  - intros before after. rewrite !selectionSetNode_unfold, !selections_loop_app.
    destruct (selections_loop before tw v p 0) as [n|e]; simpl; [|reflexivity].
    rewrite Hs0. simpl. rewrite Z.add_0_r. reflexivity.
  - intros before after. unfold documentNode. simpl.
    rewrite !documentNode_loop_app.
    destruct (documentNode_loop before tw v 0) as [n|e]; simpl; [|reflexivity].
    rewrite Hd0. simpl. rewrite Z.add_0_r. reflexivity.
Qed.

Lemma uncovered_nodes_contribute_zero_witness :
  selectionNode Examples.spreadSelection TypeComplexityTest.typeWeights ∅ "query"
    = Ok 0 /\
  definitionNode Examples.mutationDefinition TypeComplexityTest.typeWeights ∅
    = Ok 0.
Proof.
  assert (Hsel : not_a_field Examples.spreadSelection) by exact I.
  assert (Hd : not_costed TypeComplexityTest.typeWeights Examples.mutationDefinition)
    by (vm_compute; reflexivity).
  pose proof (uncovered_nodes_contribute_zero Examples.spreadSelection
                Examples.mutationDefinition TypeComplexityTest.typeWeights ∅
                "query" Hsel Hd) as (H1 & H2 & _).
  split; [exact H1 | exact H2].
Defined.

(** * Properties of the middleware *)

Module MiddlewareFacts.

Import Middleware.

(** ** Request ids *)

(** C8, at two calls of the same client in the same millisecond with the
    same cost: the calls are distinct, yet [throttledProcess] queues the
    same token for both.  Concatenation also maps distinct pairs to one
    token: timestamp 1 with cost 23, and timestamp 12 with cost 3. *)
Theorem same_timestamp_and_cost_same_token :
  caller second <> caller third /\
  requestId (timestamp second) (cost second) = "10015" /\
  requestId (timestamp third) (cost third) = "10015" /\
  ((fun st => requestQueue st !! "10.0.0.1")
     <$> run initial [Arrives second; Arrives third])
    = Some (Some ["10015"; "10015"]) /\
  requestId 1 23 = requestId 12 3.
Proof.
  split; [vm_compute; discriminate|].
  repeat split; vm_compute; reflexivity.
Qed.

(** ** Order and exclusion *)

(** C6, at the calls [first], [second], [third] of one client, the last
    two with the same token: when the bucket call of [first] completes,
    the single [emit] starts the bucket calls of both [second] and
    [third], so two calls of the client are in flight together; and when
    the store answers [third] before [second], [third] completes first. *)
Theorem duplicate_tokens_break_serialization :
  (inFlightFor "10.0.0.1"
     <$> run initial [Arrives first; Arrives second; Arrives third;
                      Settles 0 admitted])
    = Some [second; third] /\
  ((fun st => map fst (settled st))
     <$> run initial [Arrives first; Arrives second; Arrives third;
                      Settles 0 admitted; Settles 2 admitted; Settles 1 admitted])
    = Some [0; 2; 1]%nat.
Proof. split; vm_compute; reflexivity. Qed.

(** With tokens of their own, the calls of the scenario are served one at
    a time and in order: after [first] completes only [second] is in
    flight, [fourth] cannot complete before it, and the promises settle in
    the order of arrival. *)
Example distinct_tokens_are_serialized :
  (inFlightFor "10.0.0.1"
     <$> run initial [Arrives first; Arrives second; Arrives fourth;
                      Settles 0 admitted])
    = Some [second] /\
  run initial [Arrives first; Arrives second; Arrives fourth;
               Settles 0 admitted; Settles 3 admitted] = None /\
  ((fun st => (map fst (settled st), requestQueue st !! "10.0.0.1"))
     <$> run initial [Arrives first; Arrives second; Arrives fourth;
                      Settles 0 admitted; Settles 1 admitted; Settles 3 admitted])
    = Some ([0; 1; 3]%nat, None).
Proof. repeat split; vm_compute; reflexivity. Qed.

(** ** Serialization when tokens differ *)

(** *** Lists *)

Lemma filter_swap {A : Type} (f g : A -> bool) l :
  List.filter f (List.filter g l) = List.filter g (List.filter f l).
Proof.
  induction l as [|x l IH]; simpl; [reflexivity|].
  destruct (f x) eqn:Hf, (g x) eqn:Hg; simpl; rewrite ?Hf, ?Hg, IH; reflexivity.
Qed.

Lemma filter_of_map {A B : Type} (f : B -> bool) (g : A -> B) l :
  List.filter f (map g l) = map g (List.filter (fun x => f (g x)) l).
Proof.
  induction l as [|x l IH]; simpl; [reflexivity|].
  destruct (f (g x)); simpl; rewrite IH; reflexivity.
Qed.

Lemma filter_keeps_all {A : Type} (f : A -> bool) l :
  (forall x, In x l -> f x = true) -> List.filter f l = l.
Proof.
  induction l as [|x l IH]; simpl; intros H; [reflexivity|].
  rewrite (H x (or_introl eq_refl)), IH; [reflexivity|].
  intros y Hy. apply H. right. exact Hy.
Qed.

Lemma filter_keeps_none {A : Type} (f : A -> bool) l :
  (forall x, In x l -> f x = false) -> List.filter f l = [].
Proof.
  induction l as [|x l IH]; simpl; intros H; [reflexivity|].
  rewrite (H x (or_introl eq_refl)). apply IH.
  intros y Hy. apply H. right. exact Hy.
Qed.

Lemma NoDup_map_eq {A B : Type} (f : A -> B) l x y :
  List.NoDup (map f l) -> In x l -> In y l -> f x = f y -> x = y.
Proof.
  induction l as [|z l IH]; simpl; intros Hnd Hx Hy Hf; [contradiction|].
  apply List.NoDup_cons_iff in Hnd as [Hz Hnd].
  destruct Hx as [->|Hx], Hy as [->|Hy].
  - reflexivity.
  - exfalso. apply Hz. rewrite Hf. apply in_map. exact Hy.
  - exfalso. apply Hz. rewrite <- Hf. apply in_map. exact Hx.
  - apply IH; assumption.
Qed.

Lemma NoDup_map_filter_app {A B : Type} (f : A -> B) (g : A -> bool) l r :
  List.NoDup (map f (l ++ r)) -> List.NoDup (map f (List.filter g l ++ r)).
Proof.
  induction l as [|x l IH]; simpl; intros Hnd; [exact Hnd|].
  apply List.NoDup_cons_iff in Hnd as [Hx Hnd].
  destruct (g x); simpl; [|apply IH; exact Hnd].
  apply List.NoDup_cons; [|apply IH; exact Hnd].
  intros Hin. apply Hx.
  rewrite map_app in *. apply in_app_or in Hin. apply in_or_app.
  destruct Hin as [Hin|Hin]; [left | right; exact Hin].
  apply in_map_iff in Hin as (y & Hy & Hin). apply in_map_iff.
  exists y. split; [exact Hy|]. apply filter_In in Hin. apply Hin.
Qed.

Lemma In_skipn {A : Type} n (l : list A) x : In x (skipn n l) -> In x l.
Proof.
  intros H. rewrite <- (firstn_skipn n l). apply in_or_app. right. exact H.
Qed.

Lemma In_firstn {A : Type} n (l : list A) x : In x (firstn n l) -> In x l.
Proof.
  intros H. rewrite <- (firstn_skipn n l). apply in_or_app. left. exact H.
Qed.

(** *** The pieces of a turn *)

Lemma pendingOf_app u l r :
  pendingOf u (l ++ r) = (pendingOf u l ++ pendingOf u r)%list.
Proof. apply List.filter_app. Qed.

Lemma pendingOf_one u c :
  pendingOf u [c] = if String.eqb (userId c) u then [c] else [].
Proof. reflexivity. Qed.

Lemma pendingOf_In u c pending :
  In c (pendingOf u pending) <-> In c pending /\ userId c = u.
Proof.
  unfold pendingOf. rewrite filter_In, String.eqb_eq. reflexivity.
Qed.

Lemma queue_default pending st u :
  represents pending st ->
  default [] (requestQueue st !! u) = map token (pendingOf u pending).
Proof.
  intros Hrep. rewrite (rep_queue _ _ Hrep u).
  destruct (pendingOf u pending); reflexivity.
Qed.

Lemma arrival_represented pending st c :
  represents pending st ->
  represents (pending ++ [c]) (throttledProcess c st).
Proof.
  intros Hrep. unfold throttledProcess.
  rewrite (queue_default pending st (userId c) Hrep).
  fold (token c).
  assert (Hlen : (1 <? length (map token (pendingOf (userId c) pending) ++ [token c]))%nat
                 = negb (match pendingOf (userId c) pending with [] => true | _ => false end)).
  { rewrite length_app, length_map. simpl.
    destruct (pendingOf (userId c) pending); simpl; [reflexivity|].
    apply Nat.ltb_lt. lia. }
  rewrite Hlen.
  assert (Hpend : forall u, pendingOf u (pending ++ [c]) =
            (pendingOf u pending ++ if String.eqb (userId c) u then [c] else [])%list).
  { intros u. rewrite pendingOf_app, pendingOf_one. reflexivity. }
  assert (Hqueue : forall st0 u,
            requestQueue st0 =
              <[userId c := (map token (pendingOf (userId c) pending) ++ [token c])%list]>
                (requestQueue st) ->
            requestQueue st0 !! u =
              match pendingOf u (pending ++ [c]) with
              | [] => None
              | cs => Some (map token cs)
              end).
  { intros st0 u ->. rewrite Hpend.
    destruct (String.eqb (userId c) u) eqn:Hu.
    - apply String.eqb_eq in Hu. subst u. rewrite lookup_insert_eq.
      rewrite <- (map_app token _ [c]).
      destruct (pendingOf (userId c) pending ++ [c])%list eqn:Hnil; [|reflexivity].
      destruct (pendingOf (userId c) pending); discriminate.
    - apply String.eqb_neq in Hu. rewrite lookup_insert_ne by exact Hu.
      rewrite app_nil_r. apply (rep_queue _ _ Hrep). }
  destruct (pendingOf (userId c) pending) as [|oldest others] eqn:Hmine; simpl negb; cbv iota.
  - (* the queue was empty: the bucket call starts at once *)
    split.
    + intros u. apply Hqueue. reflexivity.
    + intros u. unfold inFlightFor. simpl. rewrite List.filter_app. simpl.
      fold (inFlightFor u st). rewrite (rep_inFlight _ _ Hrep u), Hpend.
      destruct (String.eqb (userId c) u) eqn:Hu.
      * apply String.eqb_eq in Hu. subst u. rewrite Hmine. reflexivity.
      * rewrite !app_nil_r. reflexivity.
    + intros u. simpl. rewrite (rep_waiting _ _ Hrep u), Hpend.
      destruct (String.eqb (userId c) u) eqn:Hu.
      * apply String.eqb_eq in Hu. subst u. rewrite Hmine. reflexivity.
      * rewrite app_nil_r. reflexivity.
  - (* the call waits behind the others *)
    split.
    + intros u. apply Hqueue. reflexivity.
    + intros u. unfold inFlightFor. simpl.
      fold (inFlightFor u st). rewrite (rep_inFlight _ _ Hrep u), Hpend.
      destruct (String.eqb (userId c) u) eqn:Hu.
      * apply String.eqb_eq in Hu. subst u. rewrite Hmine. reflexivity.
      * rewrite app_nil_r. reflexivity.
    + intros u. simpl. rewrite List.filter_app. simpl.
      rewrite (rep_waiting _ _ Hrep u), Hpend.
      destruct (String.eqb (userId c) u) eqn:Hu.
      * apply String.eqb_eq in Hu. subst u. rewrite Hmine. simpl.
        rewrite !drop_0, map_app. reflexivity.
      * rewrite !app_nil_r. reflexivity.
Qed.

Lemma started_calls fired st :
  let st' := fold_left (fun s l => processRequestResolver_call (snd l) s) fired st in
  requestQueue st' = requestQueue st /\
  requestEvents st' = requestEvents st /\
  inFlight st' = (inFlight st ++ map (snd : string * Call -> Call) fired)%list /\
  settled st' = settled st.
Proof.
  revert st. induction fired as [|l fired IH]; intros st; simpl.
  - rewrite app_nil_r. repeat split; reflexivity.
  - destruct (IH (processRequestResolver_call (snd l) st)) as (Hq & He & Hf & Hs).
    rewrite Hq, He, Hf, Hs. simpl. rewrite <- app_assoc. repeat split; reflexivity.
Qed.

Lemma emit_effect n st :
  let st' := emit (Some n) st in
  requestQueue st' = requestQueue st /\
  requestEvents st' =
    List.filter (fun l => negb (String.eqb (fst l) n)) (requestEvents st) /\
  inFlight st' =
    (inFlight st ++
     map snd (List.filter (fun l => String.eqb (fst l) n) (requestEvents st)))%list /\
  settled st' = settled st.
Proof.
  unfold emit.
  destruct (started_calls
              (List.filter (fun l => String.eqb (fst l) n) (requestEvents st))
              {| requestQueue := requestQueue st;
                 requestEvents :=
                   List.filter (fun l => negb (String.eqb (fst l) n)) (requestEvents st);
                 inFlight := inFlight st;
                 settled := settled st |}) as (Hq & He & Hf & Hs).
  simpl in *. repeat split; assumption.
Qed.

Lemma find_caller who cs c :
  List.find (fun c => Nat.eqb (caller c) who) cs = Some c ->
  In c cs /\ caller c = who.
Proof.
  intros H. apply find_some in H as [Hin Heq].
  apply Nat.eqb_eq in Heq. split; assumption.
Qed.

(** Among pending calls with distinct callers, the one named [who] is the
    only one [without] drops. *)
Lemma without_oldest who c rest pending u :
  List.NoDup (map caller pending) ->
  pendingOf u pending = c :: rest ->
  caller c = who ->
  without who (c :: rest) = rest.
Proof.
  intros Hnd Hmine Hwho. unfold without. simpl.
  rewrite Hwho, Nat.eqb_refl. simpl.
  apply filter_keeps_all. intros x Hx.
  apply negb_true_iff, Nat.eqb_neq. intros Hsame.
  assert (Hc : In c pending).
  { apply (pendingOf_In u). rewrite Hmine. left. reflexivity. }
  assert (Hxp : In x pending).
  { apply (pendingOf_In u). rewrite Hmine. right. exact Hx. }
  assert (x = c) by (apply (NoDup_map_eq caller pending); congruence).
  subst x.
  assert (Hndu : List.NoDup (pendingOf u pending)).
  { apply List.NoDup_filter. apply (List.NoDup_map_inv caller). exact Hnd. }
  rewrite Hmine in Hndu. apply List.NoDup_cons_iff in Hndu as [Hnotin _].
  contradiction.
Qed.

Lemma without_other who c pending u cs :
  List.NoDup (map caller pending) ->
  In c pending -> caller c = who -> userId c <> u ->
  (forall x, In x cs -> In x (pendingOf u pending)) ->
  without who cs = cs.
Proof.
  intros Hnd Hc Hwho Hu Hsub. apply filter_keeps_all. intros x Hx.
  apply negb_true_iff, Nat.eqb_neq. intros Hsame.
  apply Hsub, pendingOf_In in Hx as [Hx Hux].
  assert (x = c) by (apply (NoDup_map_eq caller pending); congruence).
  subst x. contradiction.
Qed.

(** What the resolver does after a successful bucket call, field by field. *)
Lemma resume_effect c response st t q :
  requestQueue st !! userId c = Some (t :: q) ->
  let st' := processRequestResolver_resume c (Ok response) st in
  (forall u, requestQueue st' !! u =
     if String.eqb (userId c) u
     then match q with [] => None | _ => Some q end
     else requestQueue st !! u) /\
  requestEvents st' =
    match q with
    | [] => requestEvents st
    | n :: _ => List.filter (fun l => negb (String.eqb (fst l) n)) (requestEvents st)
    end /\
  inFlight st' =
    (inFlight st ++
     match q with
     | [] => []
     | n :: _ =>
         map snd (List.filter (fun l => String.eqb (fst l) n) (requestEvents st))
     end)%list /\
  settled st' = (settled st ++ [(caller c, Ok response)])%list.
Proof.
  intros Hqueue.
  unfold processRequestResolver_resume, settle, set_queue, delete_queue.
  rewrite Hqueue. simpl. rewrite lookup_insert_eq. simpl.
  destruct q as [|n q']; simpl.
  - rewrite lookup_insert_eq. simpl.
    rewrite app_nil_r. repeat split; try reflexivity.
    intros u. destruct (String.eqb (userId c) u) eqn:Hu.
    + apply String.eqb_eq in Hu. subst u. apply lookup_delete_eq.
    + apply String.eqb_neq in Hu.
      rewrite lookup_delete_ne, lookup_insert_ne by exact Hu. reflexivity.
  - match goal with |- context [fold_left ?f ?fired ?s] =>
      destruct (started_calls fired s) as (Hq & He & Hf & Hs)
    end.
    simpl in Hq, He, Hf, Hs.
    rewrite Hq, lookup_insert_eq, Hq, He, Hf, Hs.
    repeat split; try reflexivity.
    intros u. destruct (String.eqb (userId c) u) eqn:Hu.
    + apply String.eqb_eq in Hu. subst u. apply lookup_insert_eq.
    + apply String.eqb_neq in Hu. rewrite lookup_insert_ne by exact Hu. reflexivity.
Qed.

(** The listeners a token fires and those it leaves, seen per client. *)
Lemma fired_of_client pending st u n :
  represents pending st ->
  List.filter (fun c => String.eqb (userId c) u)
    (map snd (List.filter (fun l => String.eqb (fst l) n) (requestEvents st))) =
  List.filter (fun c => String.eqb (token c) n) (skipn 1 (pendingOf u pending)).
Proof.
  intros Hrep. rewrite filter_of_map, filter_swap, (rep_waiting _ _ Hrep u).
  rewrite filter_of_map, map_map. simpl. apply map_id.
Qed.

Lemma kept_of_client pending st u n :
  represents pending st ->
  List.filter (fun l => String.eqb (userId (snd l)) u)
    (List.filter (fun l => negb (String.eqb (fst l) n)) (requestEvents st)) =
  map (fun c => (token c, c))
    (List.filter (fun c => negb (String.eqb (token c) n)) (skipn 1 (pendingOf u pending))).
Proof.
  intros Hrep. rewrite filter_swap, (rep_waiting _ _ Hrep u).
  rewrite filter_of_map. reflexivity.
Qed.

Lemma token_of_another pending c' xs :
  List.NoDup (map token pending) ->
  In c' pending ->
  (forall x, In x xs -> In x pending /\ x <> c') ->
  List.filter (fun c => String.eqb (token c) (token c')) xs = [] /\
  List.filter (fun c => negb (String.eqb (token c) (token c'))) xs = xs.
Proof.
  intros Hnd Hc' Hxs.
  assert (Hne : forall x, In x xs -> String.eqb (token x) (token c') = false).
  { intros x Hx. apply String.eqb_neq. intros Hsame.
    destruct (Hxs x Hx) as [Hin Hdiff]. apply Hdiff.
    apply (NoDup_map_eq token pending); assumption. }
  split.
  - apply filter_keeps_none. exact Hne.
  - apply filter_keeps_all. intros x Hx. rewrite (Hne x Hx). reflexivity.
Qed.

(** A completion in the closure is the completion of the oldest pending
    call of its client. *)
Lemma completion_represented pending st st' who response :
  represents pending st ->
  List.NoDup (map token pending) ->
  List.NoDup (map caller pending) ->
  step st (Settles who (Ok response)) = Some st' ->
  fifo_step pending (Settles who (Ok response)) = Some (without who pending) /\
  represents (without who pending) st' /\
  settled st' = (settled st ++ [(who, Ok response)])%list.
Proof.
  intros Hrep Htok Hcal Hstep.
  unfold step, take_inFlight in Hstep.
  destruct (List.find _ (inFlight st)) as [c|] eqn:Hfind; [|discriminate].
  pose (st0 := {| requestQueue := requestQueue st;
                  requestEvents := requestEvents st;
                  inFlight := without who (inFlight st);
                  settled := settled st |}).
  assert (Hst' : st' = processRequestResolver_resume c (Ok response) st0)
    by (unfold st0, without; congruence).
  clear Hstep. rewrite Hst'. clear Hst' st'.
  apply find_caller in Hfind as [Hin Hwho].
  assert (Hmine : exists rest, pendingOf (userId c) pending = c :: rest).
  { assert (Hfl : In c (inFlightFor (userId c) st)).
    { apply filter_In. split; [exact Hin | apply String.eqb_refl]. }
    rewrite (rep_inFlight _ _ Hrep) in Hfl.
    destruct (pendingOf (userId c) pending) as [|h t]; simpl in Hfl; [contradiction|].
    destruct Hfl as [->|[]]. eexists. reflexivity. }
  destruct Hmine as [rest Hmine].
  assert (Hc : In c pending).
  { apply (pendingOf_In (userId c)). rewrite Hmine. left. reflexivity. }
  assert (Hndu : List.NoDup (c :: rest)).
  { rewrite <- Hmine. apply List.NoDup_filter.
    apply (List.NoDup_map_inv caller). exact Hcal. }
  assert (Hpend : forall u, pendingOf u (without who pending) =
            if String.eqb (userId c) u then rest else pendingOf u pending).
  { intros u. unfold pendingOf, without. rewrite filter_swap.
    fold (pendingOf u pending). fold (without who (pendingOf u pending)).
    destruct (String.eqb (userId c) u) eqn:Hu.
    - apply String.eqb_eq in Hu. subst u. rewrite Hmine.
      apply (without_oldest who c rest pending (userId c)); assumption.
    - apply String.eqb_neq in Hu.
      apply (without_other who c pending u); auto. }
  split.
  { cbn [fifo_step]. destruct (List.find _ pending) as [c0|] eqn:Hf0.
    - apply find_caller in Hf0 as [Hin0 Hwho0].
      assert (c0 = c) by (apply (NoDup_map_eq caller pending); congruence).
      subst c0. rewrite Hmine, Hwho, Nat.eqb_refl. reflexivity.
    - exfalso. apply (find_none _ _ Hf0) in Hc. simpl in Hc.
      rewrite Hwho, Nat.eqb_refl in Hc. discriminate. }
  destruct (resume_effect c response st0 (token c) (map token rest))
    as (Hq & He & Hf & Hs).
  { simpl. rewrite (rep_queue _ _ Hrep), Hmine. reflexivity. }
  cbv zeta in Hq, He, Hf, Hs.
  generalize dependent (processRequestResolver_resume c (Ok response) st0).
  intros st' Hq He Hf Hs. unfold st0 in *. clear st0.
  cbn [requestQueue requestEvents inFlight settled] in Hq, He, Hf, Hs.
  split; [|rewrite Hs, Hwho; reflexivity].
  (* the waiting calls of the same client, and the others *)
  assert (Hnext : forall c' rest' u, rest = c' :: rest' ->
            List.filter (fun x => String.eqb (token x) (token c'))
              (skipn 1 (pendingOf u pending)) =
              (if String.eqb (userId c) u then [c'] else []) /\
            List.filter (fun x => negb (String.eqb (token x) (token c')))
              (skipn 1 (pendingOf u pending)) =
              (if String.eqb (userId c) u then rest' else skipn 1 (pendingOf u pending))).
  { intros c' rest' u ->.
    assert (Hc' : In c' pending).
    { apply (pendingOf_In (userId c)). rewrite Hmine. right. left. reflexivity. }
    assert (Huc' : userId c' = userId c).
    { apply (pendingOf_In (userId c) c' pending). rewrite Hmine. right. left. reflexivity. }
    destruct (String.eqb (userId c) u) eqn:Hu.
    - apply String.eqb_eq in Hu. subst u. rewrite Hmine. simpl.
      rewrite String.eqb_refl. simpl.
      destruct (token_of_another pending c' rest' Htok Hc') as [Hnone Hall].
      { intros x Hx. split.
        - apply (pendingOf_In (userId c)). rewrite Hmine. right. right. exact Hx.
        - intros ->. apply List.NoDup_cons_iff in Hndu as [_ Hndu].
          apply List.NoDup_cons_iff in Hndu as [Hnotin _]. contradiction. }
      rewrite Hnone, Hall. split; reflexivity.
    - apply String.eqb_neq in Hu.
      apply (token_of_another pending c' _ Htok Hc').
      intros x Hx. apply In_skipn, pendingOf_In in Hx as [Hx Hux].
      split; [exact Hx|]. intros ->. congruence. }
  split.
  - intros u. rewrite Hq, Hpend.
    destruct (String.eqb (userId c) u).
    + destruct rest; reflexivity.
    + apply (rep_queue _ _ Hrep).
  - intros u. unfold inFlightFor. rewrite Hf, List.filter_app.
    unfold without at 1. rewrite filter_swap.
    fold (inFlightFor u st). fold (without who (inFlightFor u st)).
    rewrite (rep_inFlight _ _ Hrep u), Hpend.
    destruct rest as [|c' rest'].
    + simpl. rewrite app_nil_r.
      destruct (String.eqb (userId c) u) eqn:Hu.
      * apply String.eqb_eq in Hu. subst u. rewrite Hmine. simpl.
        rewrite Hwho, Nat.eqb_refl. reflexivity.
      * apply String.eqb_neq in Hu.
        apply (without_other who c pending u); auto.
        intros x Hx. apply (In_firstn 1). exact Hx.
    + cbn [map]. rewrite (fired_of_client pending st u (token c') Hrep).
      rewrite (proj1 (Hnext c' rest' u eq_refl)).
      destruct (String.eqb (userId c) u) eqn:Hu.
      * apply String.eqb_eq in Hu. subst u. rewrite Hmine. simpl.
        rewrite Hwho, Nat.eqb_refl. reflexivity.
      * apply String.eqb_neq in Hu. rewrite app_nil_r.
        apply (without_other who c pending u); auto.
        intros x Hx. apply (In_firstn 1). exact Hx.
  - intros u. rewrite He, Hpend.
    destruct rest as [|c' rest'].
    + simpl. rewrite (rep_waiting _ _ Hrep u).
      destruct (String.eqb (userId c) u) eqn:Hu; [|reflexivity].
      apply String.eqb_eq in Hu. subst u. rewrite Hmine. reflexivity.
    + cbn [map]. rewrite (kept_of_client pending st u (token c') Hrep).
      rewrite (proj2 (Hnext c' rest' u eq_refl)).
      destruct (String.eqb (userId c) u); reflexivity.
Qed.

Lemma initial_represented : represents [] initial.
Proof. split; intros u; reflexivity. Qed.

Lemma run_represented evs :
  forall pending st st',
    represents pending st ->
    List.NoDup (map token (pending ++ arrivals evs)) ->
    List.NoDup (map caller (pending ++ arrivals evs)) ->
    Forall no_store_error evs ->
    run st evs = Some st' ->
    exists pending', fifo_run pending evs = Some pending' /\ represents pending' st'.
Proof.
  induction evs as [|ev evs IH]; intros pending st st' Hrep Htok Hcal Hok Hrun.
  - simpl in Hrun. injection Hrun as <-. exists pending. split; [reflexivity | exact Hrep].
  - apply Forall_cons_iff in Hok as [Hev Hok].
    destruct ev as [c|who [response|e]]; [| |contradiction].
    + cbn [run step] in Hrun. cbn [fifo_run fifo_step].
      cbn [arrivals flat_map] in Htok, Hcal.
      change ([c] ++ flat_map _ evs)%list with ([c] ++ arrivals evs)%list in Htok, Hcal.
      rewrite app_assoc in Htok, Hcal.
      apply (IH _ _ _ (arrival_represented pending st c Hrep) Htok Hcal Hok Hrun).
    + cbn [run] in Hrun.
      destruct (step st (Settles who (Ok response))) as [st1|] eqn:Hstep; [|discriminate].
      cbn [arrivals flat_map] in Htok, Hcal.
      change (([] : list Call) ++ flat_map _ evs)%list with (arrivals evs) in Htok, Hcal.
      destruct (completion_represented pending st st1 who response Hrep) as (Hfifo & Hrep1 & _).
      * rewrite map_app in Htok. apply List.NoDup_app_remove_r in Htok. exact Htok.
      * rewrite map_app in Hcal. apply List.NoDup_app_remove_r in Hcal. exact Hcal.
      * exact Hstep.
      * cbn [fifo_run]. rewrite Hfifo.
        apply (IH _ _ _ Hrep1); try assumption;
          apply NoDup_map_filter_app; assumption.
Qed.

(** X8: as long as no two calls share a token and the store does not fail,
    every run of the closure is a run of the per-client FIFO queue, and at
    most one bucket call per client is in flight. *)
Theorem serialized_when_tokens_differ evs st :
  List.NoDup (map token (arrivals evs)) ->
  List.NoDup (map caller (arrivals evs)) ->
  Forall no_store_error evs ->
  run initial evs = Some st ->
  (exists pending, fifo_run [] evs = Some pending /\ represents pending st) /\
  (forall u, (length (inFlightFor u st) <= 1)%nat).
Proof.
  intros Htok Hcal Hok Hrun.
  destruct (run_represented evs [] initial st initial_represented Htok Hcal Hok Hrun)
    as (pending & Hfifo & Hrep).
  split; [exists pending; split; assumption|].
  intros u. rewrite (rep_inFlight _ _ Hrep u), length_firstn. lia.
Qed.

(** ** Errors of the store *)

Lemma settles_needs_inFlight st who outcome :
  inFlight st = [] -> step st (Settles who outcome) = None.
Proof.
  intros Hidle. unfold step, take_inFlight. rewrite Hidle. reflexivity.
Qed.

Lemma arrival_behind_a_head st c head rest :
  requestQueue st !! userId c = Some (head :: rest) ->
  let st' := throttledProcess c st in
  requestQueue st' !! userId c
    = Some (head :: (rest ++ [requestId (timestamp c) (cost c)])%list) /\
  inFlight st' = inFlight st /\
  settled st' = settled st.
Proof.
  intros Hqueue. unfold throttledProcess. rewrite Hqueue. simpl.
  destruct (rest ++ [requestId (timestamp c) (cost c)])%list eqn:Hrest.
  - destruct rest; discriminate.
  - simpl. rewrite lookup_insert_eq. repeat split; reflexivity.
Qed.

(** Once a client's queue is not empty while none of its resolvers is
    suspended, no later event of that client completes anything. *)
Lemma stuck_queue_stays_stuck user evs :
  Forall (of_client user) evs ->
  forall st st' head rest,
    requestQueue st !! user = Some (head :: rest) ->
    inFlight st = [] ->
    run st evs = Some st' ->
    settled st' = settled st /\ inFlight st' = [].
Proof.
  induction 1 as [|ev evs Hev _ IH]; intros st st' head rest Hqueue Hidle Hrun.
  - simpl in Hrun. injection Hrun as <-. split; [reflexivity | exact Hidle].
  - simpl in Hrun. destruct ev as [c|who outcome].
    + simpl in Hev. subst user. simpl in Hrun.
      destruct (arrival_behind_a_head st c head rest Hqueue) as (Hq & Hf & Hs).
      destruct (IH _ _ _ _ Hq (eq_trans Hf Hidle) Hrun) as [Hs' Hf'].
      split; [congruence | exact Hf'].
    + rewrite (settles_needs_inFlight st who outcome Hidle) in Hrun. discriminate.
Qed.

(** C7, at two calls of one client when the store fails the first: the
    error reaches the first caller, but the head of the queue is not
    removed and the second token is not woken; whatever this client does
    afterwards, no call of it completes any more. *)
Theorem store_error_blocks_the_queue :
  exists st,
    run initial [Arrives first; Arrives second; Settles 0 storeTimeout] = Some st /\
    settled st = [(0%nat, storeTimeout)] /\
    requestQueue st !! "10.0.0.1" = Some ["10002"; "10015"] /\
    requestEvents st = [("10015", second)] /\
    inFlight st = [] /\
    forall evs st',
      Forall (of_client "10.0.0.1") evs ->
      run st evs = Some st' ->
      settled st' = settled st /\ inFlight st' = [].
Proof.
  eexists. split; [vm_compute; reflexivity|].
  split; [reflexivity|]. split; [vm_compute; reflexivity|].
  split; [reflexivity|]. split; [reflexivity|].
  intros evs st' Hevs Hrun.
  eapply (stuck_queue_stays_stuck "10.0.0.1" evs Hevs); [| |exact Hrun].
  - vm_compute. reflexivity.
  - reflexivity.
Qed.

(** ** The response to a rejected request *)

(** Whatever the bucket's answer says about waiting, a rejection outside
    dark mode sets the status code and sends the payload, and leaves the
    headers as they were; in dark mode it calls [next()] with the record
    attached. *)
Lemma rejection_outcome dark ts c res r :
  success r = false ->
  let out := handleRateLimiterResponse dark ts c res (Ok r) in
  if dark
  then snd out = Next None /\
       gate_success <$> (locals (fst out) !! "graphqlGate") = Some false /\
       statusCode (fst out) = statusCode res
  else snd out = Sent /\
       statusCode (fst out) = Some 429 /\
       headers (fst out) = headers res.
Proof.
  intros Hrejected. unfold handleRateLimiterResponse. rewrite Hrejected.
  destruct dark; simpl.
  - rewrite lookup_insert_eq. simpl. rewrite ?Hrejected.
    repeat split; reflexivity.
  - repeat split; reflexivity.
Qed.

(** C9, at a rejection with [retryAfterMs = 2000]: outside dark mode the
    handler answers 429 but sets no [Retry-After] header (and sends the
    payload read under the misspelt key [graphqlgate], which is
    undefined); in dark mode it calls [next()] and the record carries
    [success = false]. *)
Theorem rejected_request_gets_no_retry_after :
  let out := handleRateLimiterResponse false 1000 6 freshResponse (Ok rejected) in
  let dark := handleRateLimiterResponse true 1000 6 freshResponse (Ok rejected) in
  snd out = Sent /\
  statusCode (fst out) = Some 429 /\
  header "Retry-After" (fst out) = None /\
  headers (fst out) = [] /\
  json (fst out) = Some None /\
  snd dark = Next None /\
  gate_success <$> (locals (fst dark) !! "graphqlGate") = Some false.
Proof. repeat split; vm_compute; reflexivity. Qed.

End MiddlewareFacts.

(** * Further properties of the walker *)

Lemma nodes_induction (P : SelectionNode -> Prop) (Q : FieldNode -> Prop)
    (R : SelectionSetNode -> Prop) :
  (forall f, Q f -> P (FIELD f)) ->
  (forall name, P (FRAGMENT_SPREAD name)) ->
  (forall tc ss, R ss -> P (INLINE_FRAGMENT tc ss)) ->
  (forall alias name args ss,
     match ss with Some s => R s | None => True end ->
     Q (Field alias name args ss)) ->
  (forall sels, Forall P sels -> R (SelectionSet sels)) ->
  (forall sel, P sel) /\ (forall f, Q f) /\ (forall ss, R ss).
Proof.
  intros H1 H2 H3 H4 H5. repeat split.
  - apply (SelectionNode_induction P Q R); assumption.
  - apply (FieldNode_induction P Q R); assumption.
  - apply (SelectionSetNode_induction P Q R); assumption.
Qed.

Lemma documentNode_loop_acc ds tw v acc :
  documentNode_loop ds tw v acc =
    let* n := documentNode_loop ds tw v 0 in Ok (acc + n).
Proof.
  revert acc. induction ds as [|d rest IH]; intros acc; simpl.
  - f_equal. lia.
  - destruct (definitionNode d tw v) as [c|e]; simpl; [|reflexivity].
    rewrite (IH (acc + c)), (IH (0 + c)).
    destruct (documentNode_loop rest tw v 0); simpl; [f_equal; lia | reflexivity].
Qed.

(** ** Aliases *)

Lemma unalias_set_unfold sels :
  unalias_set (SelectionSet sels) = SelectionSet (map unalias_selection sels).
Proof. reflexivity. Qed.

Lemma selections_loop_unalias sels tw v p acc :
  Forall (fun sel => forall p,
            selectionNode (unalias_selection sel) tw v p = selectionNode sel tw v p)
    sels ->
  selections_loop (map unalias_selection sels) tw v p acc =
  selections_loop sels tw v p acc.
Proof.
  intros Hall. revert acc.
  induction Hall as [|x rest Hx _ IH]; intros acc; simpl; [reflexivity|].
  rewrite Hx. destruct (selectionNode x tw v p); simpl; [apply IH | reflexivity].
Qed.

Lemma walk_unalias tw v :
  (forall sel p,
     selectionNode (unalias_selection sel) tw v p = selectionNode sel tw v p) /\
  (forall f p, fieldNode (unalias_field f) tw v p = fieldNode f tw v p) /\
  (forall ss p, selectionSetNode (unalias_set ss) tw v p = selectionSetNode ss tw v p).
Proof.
  apply nodes_induction.
  - intros f IH p. simpl unalias_selection. rewrite !selectionNode_FIELD. apply IH.
  - reflexivity.
  - reflexivity.
  - intros alias name args ss IH p.
    change (unalias_field (Field alias name args ss)) with
      (Field None name args
         match ss with Some s => Some (unalias_set s) | None => None end).
    rewrite !fieldNode_unfold.
    assert (Hs : selectionsCost
                   match ss with Some s => Some (unalias_set s) | None => None end
                   tw v name = selectionsCost ss tw v name).
    { destruct ss as [s|]; simpl; [rewrite IH|]; reflexivity. }
    rewrite Hs. reflexivity.
  - intros sels IH p. rewrite unalias_set_unfold, !selectionSetNode_unfold.
    apply selections_loop_unalias. exact IH.
Qed.

Lemma definitionNode_unalias d tw v :
  definitionNode (unalias_definition d) tw v = definitionNode d tw v.
Proof.
  destruct d as [op name [ss|]| |]; try reflexivity.
  simpl. rewrite (proj2 (proj2 (walk_unalias tw v))). reflexivity.
Qed.

Lemma documentNode_unalias doc tw v :
  documentNode (unalias_document doc) tw v = documentNode doc tw v.
Proof.
  destruct doc as [ds]. unfold documentNode, unalias_document. simpl.
  generalize 0. induction ds as [|d rest IH]; intros acc; simpl; [reflexivity|].
  rewrite definitionNode_unalias.
  destruct (definitionNode d tw v); simpl; [apply IH | reflexivity].
Qed.

(** X1: two documents that differ only in the aliases of their fields,
    at any depth, have the same outcome: the same cost or the same
    exception. *)
Theorem aliases_do_not_count doc1 doc2 tw v :
  unalias_document doc1 = unalias_document doc2 ->
  documentNode doc1 tw v = documentNode doc2 tw v.
Proof.
  intros Hsame.
  rewrite <- (documentNode_unalias doc1), <- (documentNode_unalias doc2), Hsame.
  reflexivity.
Qed.

Lemma aliases_do_not_count_witness :
  documentNode TypeComplexityTest.aliases TypeComplexityTest.typeWeights ∅ =
  documentNode
    (TypeComplexityTest.query
       [FIELD (Field None "scalars" (Some [])
                 (Some (SelectionSet [TypeComplexityTest.leaf "num"])));
        FIELD (Field (Some "other") "scalars" (Some [])
                 (Some (SelectionSet [TypeComplexityTest.leaf "id"])))])
    TypeComplexityTest.typeWeights ∅.
Proof.
  apply aliases_do_not_count. reflexivity.
Defined.

(** ** Sums *)

Lemma selectionSetNode_app before after tw v p :
  selectionSetNode (SelectionSet (before ++ after)) tw v p =
    let* x := selectionSetNode (SelectionSet before) tw v p in
    let* y := selectionSetNode (SelectionSet after) tw v p in
    Ok (x + y).
Proof.
  rewrite !selectionSetNode_unfold, selections_loop_app.
  destruct (selections_loop before tw v p 0) as [x|e]; simpl; [|reflexivity].
  apply selections_loop_acc.
Qed.

Lemma documentNode_app before after tw v :
  documentNode (Document (before ++ after)) tw v =
    let* x := documentNode (Document before) tw v in
    let* y := documentNode (Document after) tw v in
    Ok (x + y).
Proof.
  unfold documentNode. simpl. rewrite documentNode_loop_app.
  destruct (documentNode_loop before tw v 0) as [x|e]; simpl; [|reflexivity].
  apply documentNode_loop_acc.
Qed.

Lemma selections_loop_permutation sels sels' tw v p :
  Permutation sels sels' ->
  forall acc n,
    selections_loop sels tw v p acc = Ok n ->
    selections_loop sels' tw v p acc = Ok n.
Proof.
  induction 1 as [|x l l' _ IH|x y l|l l' l'' _ IH1 _ IH2]; intros acc n Hn.
  - exact Hn.
  - simpl in *. destruct (selectionNode x tw v p) as [c|e]; simpl in *;
      [apply IH; exact Hn | discriminate].
  - simpl in *.
    destruct (selectionNode y tw v p) as [cy|e]; simpl in *; [|discriminate].
    destruct (selectionNode x tw v p) as [cx|e]; simpl in *; [|discriminate].
    replace (acc + cx + cy) with (acc + cy + cx) by lia. exact Hn.
  - apply IH2, IH1. exact Hn.
Qed.

(** *** The walk within the safe integers is the walk *)

Lemma number_Some z r : number z = Some r -> r = Ok z.
Proof.
  unfold number. destruct (isSafeInteger z); [|discriminate].
  intros [= <-]. reflexivity.
Qed.

Lemma andThen_number z k out :
  andThen (number z) k = Some out -> k z = Some out.
Proof.
  unfold number. destruct (isSafeInteger z); simpl; [auto | discriminate].
Qed.

Lemma andThen_Some r k out :
  andThen r k = Some out ->
  (exists z, r = Some (Ok z) /\ k z = Some out) \/
  (exists e, r = Some (Throw e) /\ out = Throw e).
Proof.
  destruct r as [[z|e]|]; simpl; intros H.
  - left. exists z. split; [reflexivity | exact H].
  - right. exists e. split; [reflexivity | congruence].
  - discriminate.
Qed.

Lemma exactSelectionSetNode_unfold sels tw v p :
  exactSelectionSetNode (SelectionSet sels) tw v p =
  exactSelections_loop sels tw v p 0.
Proof.
  simpl. generalize 0.
  induction sels as [|x rest IH]; intros acc; simpl; [reflexivity|].
  destruct (exactSelectionNode x tw v p) as [[c|e]|]; simpl; try reflexivity.
  unfold number. destruct (isSafeInteger (acc + c)); simpl; [apply IH | reflexivity].
Qed.

Lemma exactFieldNode_unfold alias name args ss tw v p :
  exactFieldNode (Field alias name args ss) tw v p =
    if has_key (toLocaleLowerCase name) tw then
      match tw !! name with
      | None => Some (Throw (UndefinedType name))
      | Some type =>
          andThen (number (weight type)) (fun w =>
          andThen (exactSelectionsCost ss tw v name) (fun s =>
          number (combine s w)))
      end
    else
      match tw !! p with
      | None => Some (Throw (UndefinedType p))
      | Some parent =>
        match fields parent !! name with
        | Some (Leaf w) => andThen (number w) (fun w => number (0 + w))
        | fw =>
          andThen (exactSelectionsCost ss tw v name) (fun s =>
          andThen
            match args with
            | Some a =>
                match fw with
                | Some (BoundedList _ rule) =>
                    match rule a (v !! name) with
                    | Ok w => andThen (number w) (fun w => number (0 + w))
                    | Throw e => Some (Throw e)
                    end
                | _ => Some (Throw (NotAFunction p name))
                end
            | None => number 0
            end (fun m =>
          number (combine s m)))
        end
      end.
Proof. reflexivity. Qed.

Lemma exactSelections_loop_agrees sels tw v p :
  Forall (fun sel => forall p r,
            exactSelectionNode sel tw v p = Some r ->
            selectionNode sel tw v p = r) sels ->
  forall acc r,
    exactSelections_loop sels tw v p acc = Some r ->
    selections_loop sels tw v p acc = r.
Proof.
  induction 1 as [|x rest Hx _ IH]; intros acc r Hr; simpl in *.
  - congruence.
  - apply andThen_Some in Hr as [(c & Hc & Hr)|(e & Hc & ->)];
      rewrite (Hx _ _ Hc); simpl; [|reflexivity].
    apply andThen_number in Hr. apply IH. exact Hr.
Qed.

Lemma exactSelectionsCost_agrees ss tw v ctx r :
  match ss with
  | Some s => forall p r, exactSelectionSetNode s tw v p = Some r ->
                          selectionSetNode s tw v p = r
  | None => True
  end ->
  exactSelectionsCost ss tw v ctx = Some r ->
  selectionsCost ss tw v ctx = r.
Proof.
  destruct ss as [s|]; simpl; intros IH Hr.
  - apply andThen_Some in Hr as [(c & Hc & Hr)|(e & Hc & ->)];
      rewrite (IH _ _ Hc); simpl; [|reflexivity].
    apply number_Some in Hr. symmetry. exact Hr.
  - apply number_Some in Hr. symmetry. exact Hr.
Qed.

(** Whatever the walk within the safe integers gives, a cost or an
    exception, the walker gives. *)
Lemma exact_walk_agrees tw v :
  (forall sel p r, exactSelectionNode sel tw v p = Some r ->
                   selectionNode sel tw v p = r) /\
  (forall f p r, exactFieldNode f tw v p = Some r -> fieldNode f tw v p = r) /\
  (forall ss p r, exactSelectionSetNode ss tw v p = Some r ->
                  selectionSetNode ss tw v p = r).
Proof.
  apply nodes_induction.
  - intros f IH p r Hr. rewrite selectionNode_FIELD. simpl in Hr.
    apply andThen_Some in Hr as [(c & Hc & Hr)|(e & Hc & ->)];
      rewrite (IH _ _ Hc); [|reflexivity].
    apply number_Some in Hr. subst r. f_equal.
  - intros name p r Hr. apply number_Some in Hr. subst r. reflexivity.
  - intros tc ss _ p r Hr. apply number_Some in Hr. subst r. reflexivity.
  - intros alias name args ss IH p r Hr.
    rewrite exactFieldNode_unfold in Hr. rewrite fieldNode_unfold.
    pose proof (fun r => exactSelectionsCost_agrees ss tw v name r IH) as Hs.
    destruct (has_key (toLocaleLowerCase name) tw).
    + destruct (tw !! name) as [type|]; [|congruence].
      apply andThen_number in Hr.
      apply andThen_Some in Hr as [(s & Hc & Hr)|(e & Hc & ->)];
        rewrite (Hs _ Hc); simpl; [|reflexivity].
      apply number_Some in Hr. symmetry. exact Hr.
    + destruct (tw !! p) as [parent|]; [|congruence].
      assert (Hrest : forall m : option (result Z),
        andThen (exactSelectionsCost ss tw v name) (fun s =>
          andThen m (fun m => number (combine s m))) = Some r ->
        forall m' : result Z, (forall x, m = Some x -> m' = x) ->
        (let* s := selectionsCost ss tw v name in
         let* m := m' in Ok (combine s m)) = r).
      { intros m Hm m' Hmm'.
        apply andThen_Some in Hm as [(s & Hc & Hm)|(e & Hc & ->)];
          rewrite (Hs _ Hc); simpl; [|reflexivity].
        apply andThen_Some in Hm as [(w & Hw & Hm)|(e & Hw & ->)];
          rewrite (Hmm' _ Hw); simpl; [|reflexivity].
        apply number_Some in Hm. symmetry. exact Hm. }
      destruct (fields parent !! name) as [[w|resolveTo|resolveTo rule]|].
      * apply andThen_number in Hr. apply number_Some in Hr.
        symmetry. exact Hr.
      * apply (Hrest _ Hr). destruct args; intros x Hx;
          [congruence | apply number_Some in Hx; symmetry; exact Hx].
      * apply (Hrest _ Hr). destruct args as [a|]; intros x Hx;
          [|apply number_Some in Hx; symmetry; exact Hx].
        destruct (rule a (v !! name)) as [w|e]; simpl; [|congruence].
        apply andThen_number in Hx. apply number_Some in Hx.
        symmetry. exact Hx.
      * apply (Hrest _ Hr). destruct args; intros x Hx;
          [congruence | apply number_Some in Hx; symmetry; exact Hx].
  - intros sels IH p r Hr.
    rewrite exactSelectionSetNode_unfold in Hr. rewrite selectionSetNode_unfold.
    apply (exactSelections_loop_agrees _ _ _ _ IH). exact Hr.
Qed.

(** Beyond the safe integers the walk within them gives nothing: two
    leaves of weight [MAX_SAFE_INTEGER] add up to a number that a double
    rounds. *)
Example sum_beyond_the_safe_integers :
  let tw : TypeWeightObject :=
    list_to_map [("big", TypeWeight 0 (list_to_map [("a", Leaf MAX_SAFE_INTEGER)]))] in
  let sels := SelectionSet [TypeComplexityTest.leaf "a"; TypeComplexityTest.leaf "a"] in
  exactSelectionSetNode sels tw ∅ "big" = None /\
  selectionSetNode sels tw ∅ "big" = Ok (2 * MAX_SAFE_INTEGER).
Proof. split; vm_compute; reflexivity. Qed.

Lemma exactSelectionSetNode_agrees ss tw v p r :
  exactSelectionSetNode ss tw v p = Some r -> selectionSetNode ss tw v p = r.
Proof. apply exact_walk_agrees. Qed.

Lemma exactDefinitionNode_agrees d tw v r :
  exactDefinitionNode d tw v = Some r -> definitionNode d tw v = r.
Proof.
  destruct d as [op name ss| |]; simpl; intros Hr;
    try (apply number_Some in Hr; symmetry; exact Hr).
  destruct (has_key (toLocaleLowerCase (operation_string op)) tw);
    [|apply number_Some in Hr; symmetry; exact Hr].
  destruct (tw !! operation_string op) as [type|]; [|congruence].
  do 2 apply andThen_number in Hr.
  destruct ss as [s|]; [|congruence].
  apply andThen_Some in Hr as [(c & Hc & Hr)|(e & Hc & ->)];
    rewrite (exactSelectionSetNode_agrees _ _ _ _ _ Hc); simpl; [|reflexivity].
  apply number_Some in Hr. symmetry. exact Hr.
Qed.

Lemma exactDocumentNode_loop_agrees ds tw v acc r :
  exactDocumentNode_loop ds tw v acc = Some r ->
  documentNode_loop ds tw v acc = r.
Proof.
  revert acc. induction ds as [|d rest IH]; intros acc Hr; simpl in *.
  - congruence.
  - apply andThen_Some in Hr as [(c & Hc & Hr)|(e & Hc & ->)];
      rewrite (exactDefinitionNode_agrees _ _ _ _ Hc); simpl; [|reflexivity].
    apply andThen_number in Hr. apply IH. exact Hr.
Qed.

Lemma exactDocumentNode_agrees doc tw v r :
  exactDocumentNode doc tw v = Some r -> documentNode doc tw v = r.
Proof. apply exactDocumentNode_loop_agrees. Qed.

(** X2: the cost of a selection set is the sum of the costs of its parts.
    For field names that are no inherited property names, and as long as
    every number of the three walks stays within the safe integers:
    splitting the selections in two, the set costs what the two halves
    cost together, and it throws what the first failing half throws. *)
Theorem selection_sets_add_up before after tw v p r x y :
  forallb own_name (p :: names_of_set (SelectionSet (before ++ after))) = true ->
  exactSelectionSetNode (SelectionSet (before ++ after)) tw v p = Some r ->
  exactSelectionSetNode (SelectionSet before) tw v p = Some x ->
  exactSelectionSetNode (SelectionSet after) tw v p = Some y ->
  r = (let* x := x in let* y := y in Ok (x + y)).
Proof.
  intros _ Hr Hx Hy.
  apply exactSelectionSetNode_agrees in Hr, Hx, Hy.
  rewrite <- Hr, <- Hx, <- Hy. apply selectionSetNode_app.
Qed.

Lemma selection_sets_add_up_witness :
  exactSelectionSetNode
    (SelectionSet ([TypeComplexityTest.leaf "num"] ++
                   [FIELD Examples.scalarsField; TypeComplexityTest.leaf "id"]))
    Examples.weightedScalars ∅ "scalars" = Some (Ok 12) /\
  Ok 12 = (let* x := Ok 1 in let* y := Ok 11 in Ok (x + y)).
Proof.
  split; [vm_compute; reflexivity|].
  apply (selection_sets_add_up
           [TypeComplexityTest.leaf "num"]
           [FIELD Examples.scalarsField; TypeComplexityTest.leaf "id"]
           Examples.weightedScalars ∅ "scalars" (Ok 12) (Ok 1) (Ok 11));
    vm_compute; reflexivity.
Defined.

(** X3: a document costs the sum of its definitions.  For field names
    that are no inherited property names, and as long as every number of
    the three analyses stays within the safe integers: the analysis of
    two lists of definitions put together is the sum of the two
    analyses, or the exception of the first that fails. *)
Theorem documents_add_up before after tw v r x y :
  forallb own_name (names_of_document (Document (before ++ after))) = true ->
  exactDocumentNode (Document (before ++ after)) tw v = Some r ->
  exactDocumentNode (Document before) tw v = Some x ->
  exactDocumentNode (Document after) tw v = Some y ->
  r = (let* x := x in let* y := y in Ok (x + y)).
Proof.
  intros _ Hr Hx Hy.
  apply exactDocumentNode_agrees in Hr, Hx, Hy.
  rewrite <- Hr, <- Hx, <- Hy. apply documentNode_app.
Qed.

Lemma documents_add_up_witness :
  exactDocumentNode
    (Document (definitions Examples.numbersQuery ++
               definitions Examples.numbersQuery))
    Examples.scalarListTable ∅ = Some (Ok 8) /\
  Ok 8 = (let* x := Ok 4 in let* y := Ok 4 in Ok (x + y)).
Proof.
  split; [vm_compute; reflexivity|].
  apply (documents_add_up
           (definitions Examples.numbersQuery) (definitions Examples.numbersQuery)
           Examples.scalarListTable ∅ (Ok 8) (Ok 4) (Ok 4));
    vm_compute; reflexivity.
Defined.

(** X4: the order of the selections does not matter.  For field names
    that are no inherited property names: when a selection set has a cost
    and every number of the walk stays within the safe integers, every
    reordering of its selections whose walk stays within them too has the
    same cost. *)
Theorem selection_order_is_irrelevant sels sels' tw v p n :
  Permutation sels sels' ->
  forallb own_name (p :: names_of_set (SelectionSet sels)) = true ->
  exactSelectionSetNode (SelectionSet sels) tw v p = Some (Ok n) ->
  is_Some (exactSelectionSetNode (SelectionSet sels') tw v p) ->
  exactSelectionSetNode (SelectionSet sels') tw v p = Some (Ok n).
Proof.
  intros Hperm _ Hn [r Hr]. rewrite Hr. f_equal.
  apply exactSelectionSetNode_agrees in Hn, Hr.
  rewrite selectionSetNode_unfold in Hn, Hr.
  rewrite (selections_loop_permutation _ _ _ _ _ Hperm _ _ Hn) in Hr.
  congruence.
Qed.

Lemma selection_order_is_irrelevant_witness :
  exactSelectionSetNode
    (SelectionSet [TypeComplexityTest.leaf "id"; FIELD Examples.scalarsField])
    Examples.weightedScalars ∅ "scalars" = Some (Ok 11).
Proof.
  apply (selection_order_is_irrelevant
           [FIELD Examples.scalarsField; TypeComplexityTest.leaf "id"]).
  - apply perm_swap.
  - vm_compute. reflexivity.
  - vm_compute. reflexivity.
  - eexists. vm_compute. reflexivity.
Defined.

(** ** Variables *)

(** X5: a variable whose name is not the name of a field selected in the
    document is never read: setting it to any value, or removing it,
    leaves the outcome of the analysis as it was. *)
Theorem variables_without_a_field_are_not_read doc tw (v : Variables) key x :
  ~ In key (names_of_document doc) ->
  documentNode doc tw (<[key := x]> v) = documentNode doc tw v /\
  documentNode doc tw (delete key v) = documentNode doc tw v.
Proof.
  intros Hfresh. split; apply documentNode_agree; intros name Hname.
  - apply lookup_insert_ne. intros ->. contradiction.
  - apply lookup_delete_ne. intros ->. contradiction.
Qed.

Lemma variables_without_a_field_are_not_read_witness :
  documentNode Examples.numbersQuery Examples.scalarListTable ∅ = Ok 4 /\
  documentNode Examples.numbersQuery Examples.scalarListTable
    (<["first" := VInt 7]> ∅) = Ok 4 /\
  documentNode Examples.numbersQuery Examples.scalarListTable
    (<["first" := VInt 7]> ∅)
  = documentNode Examples.numbersQuery Examples.scalarListTable ∅.
Proof.
  split; [vm_compute; reflexivity|].
  split; [vm_compute; reflexivity|].
  apply (variables_without_a_field_are_not_read
           Examples.numbersQuery Examples.scalarListTable ∅
           "first" (VInt 7)).
  vm_compute. intros [H|[]]; discriminate.
Defined.

(** ** Selecting more *)

Lemma combine_monotone s s' w :
  0 <= s -> s <= s' -> 1 <= w -> combine s w <= combine s' w.
Proof.
  intros Hs Hle Hw. unfold combine.
  destruct (s <=? 1) eqn:H1, (s' <=? 1) eqn:H2;
    rewrite ?Z.leb_le, ?Z.leb_gt in *; nia.
Qed.


Lemma nestedScalarsTable_nonneg : nonneg_table Examples.nestedScalarsTable.
Proof.
  unfold nonneg_table, Examples.nestedScalarsTable. simpl.
  apply map_Forall_insert_2; [split; [simpl; lia | apply map_Forall_empty]|].
  apply map_Forall_insert_2; [|apply map_Forall_empty].
  split; [simpl; lia|]. simpl.
  repeat (apply map_Forall_insert_2; [simpl; lia|]). apply map_Forall_empty.
Qed.


(** * Further properties of the middleware *)

Module SerializerFacts.

Import Middleware MiddlewareFacts Serializer.

(** ** Every promise settles with the outcome of its bucket call *)

Lemma length_filter_le {A : Type} (f : A -> bool) l :
  (length (List.filter f l) <= length l)%nat.
Proof.
  induction l as [|x l IH]; simpl; [lia|]. destruct (f x); simpl; lia.
Qed.

Lemma length_filter_split {A : Type} (f : A -> bool) l :
  (length (List.filter f l) + length (List.filter (fun x => negb (f x)) l)
   = length l)%nat.
Proof.
  induction l as [|x l IH]; simpl; [reflexivity|]. destruct (f x); simpl; lia.
Qed.

Lemma length_filter_drops {A : Type} (f : A -> bool) l x :
  In x l -> f x = false -> (length (List.filter f l) + 1 <= length l)%nat.
Proof.
  induction l as [|y l IH]; simpl; intros Hin Hf; [contradiction|].
  destruct Hin as [->|Hin].
  - rewrite Hf. pose proof (length_filter_le f l). lia.
  - specialize (IH Hin Hf). destruct (f y); simpl; lia.
Qed.

(** What a call of [throttledProcess] changes. *)
Lemma arrival_effect c st :
  let st' := throttledProcess c st in
  (forall u, default [] (requestQueue st' !! u) =
     (default [] (requestQueue st !! u) ++
      if String.eqb (userId c) u then [token c] else [])%list) /\
  settled st' = settled st /\
  ((inFlight st' = (inFlight st ++ [c])%list /\
    requestEvents st' = requestEvents st) \/
   (inFlight st' = inFlight st /\
    requestEvents st' = (requestEvents st ++ [(token c, c)])%list)).
Proof.
  unfold throttledProcess. fold (token c).
  assert (Hqueue : forall u,
            default []
              (<[userId c := (default [] (requestQueue st !! userId c) ++ [token c])%list]>
                 (requestQueue st) !! u) =
              (default [] (requestQueue st !! u) ++
               if String.eqb (userId c) u then [token c] else [])%list).
  { intros u. destruct (String.eqb (userId c) u) eqn:Hu.
    - apply String.eqb_eq in Hu. subst u. rewrite lookup_insert_eq. reflexivity.
    - apply String.eqb_neq in Hu. rewrite lookup_insert_ne by exact Hu.
      rewrite app_nil_r. reflexivity. }
  destruct (1 <? length _)%nat; simpl.
  - split; [exact Hqueue|].
    split; [reflexivity|]. right. split; reflexivity.
  - split; [exact Hqueue|].
    split; [reflexivity|]. left. split; reflexivity.
Qed.

Lemma arrival_covered c st :
  tokens_cover st -> tokens_cover (throttledProcess c st).
Proof.
  intros Hcover u.
  destruct (arrival_effect c st) as (Hq & _ & Hcase).
  rewrite Hq, length_app. specialize (Hcover u).
  unfold inFlightFor, waitingFor in *.
  destruct Hcase as [[-> ->]|[-> ->]]; rewrite List.filter_app, length_app; simpl;
    destruct (String.eqb (userId c) u); simpl; lia.
Qed.

(** The listeners an [emit] starts move from waiting to in flight. *)
Lemma emit_balance u n (events : list (string * Call)) :
  (length (List.filter (fun c => String.eqb (userId c) u)
             (map snd (List.filter (fun l => String.eqb (fst l) n) events)))
   + length (List.filter (fun l => String.eqb (userId (snd l)) u)
               (List.filter (fun l => negb (String.eqb (fst l) n)) events))
   = length (List.filter (fun l => String.eqb (userId (snd l)) u) events))%nat.
Proof.
  rewrite filter_of_map, length_map.
  rewrite (filter_swap _ (fun l => String.eqb (fst l) n)).
  rewrite (filter_swap _ (fun l => negb (String.eqb (fst l) n))).
  apply (length_filter_split (fun l : string * Call => String.eqb (fst l) n)).
Qed.

Lemma settle_covered st st' who outcome :
  tokens_cover st ->
  step st (Settles who outcome) = Some st' ->
  tokens_cover st' /\ settled st' = (settled st ++ [(who, outcome)])%list.
Proof.
  intros Hcover Hstep. unfold step, take_inFlight in Hstep.
  destruct (List.find _ (inFlight st)) as [c|] eqn:Hfind; [|discriminate].
  pose (st0 := {| requestQueue := requestQueue st;
                  requestEvents := requestEvents st;
                  inFlight := without who (inFlight st);
                  settled := settled st |}).
  assert (Hst' : st' = processRequestResolver_resume c outcome st0)
    by (unfold st0, without; congruence).
  clear Hstep. apply find_caller in Hfind as [Hin Hwho].
  assert (Hless : forall u,
            (length (inFlightFor u st0) + (if String.eqb (userId c) u then 1 else 0)
             <= length (inFlightFor u st))%nat).
  { intros u. unfold inFlightFor, st0. simpl. unfold without.
    rewrite filter_swap.
    destruct (String.eqb (userId c) u) eqn:Hu.
    - apply (length_filter_drops _ _ c).
      + apply filter_In. split; [exact Hin | exact Hu].
      + rewrite Hwho, Nat.eqb_refl. reflexivity.
    - pose proof (length_filter_le (fun c' => negb (Nat.eqb (caller c') who))
                    (List.filter (fun c' => String.eqb (userId c') u) (inFlight st))).
      lia. }
  destruct outcome as [response|err].
  - (* the bucket call resolved *)
    assert (Hhead : exists t q, requestQueue st !! userId c = Some (t :: q)).
    { pose proof (Hcover (userId c)) as Hc. pose proof (Hless (userId c)) as Hl.
      rewrite String.eqb_refl in Hl.
      destruct (requestQueue st !! userId c) as [[|t q]|]; simpl in Hc;
        [lia | eauto | lia]. }
    destruct Hhead as (t & q & Hqueue).
    destruct (resume_effect c response st0 t q Hqueue) as (Hq & He & Hf & Hs).
    cbv zeta in Hq, He, Hf, Hs. rewrite <- Hst' in Hq, He, Hf, Hs.
    split; [|rewrite Hs, Hwho; reflexivity].
    intros u. specialize (Hcover u). specialize (Hless u).
    assert (Hroom : (length (default [] (requestQueue st' !! u)) +
                     (if String.eqb (userId c) u then 1 else 0)
                     = length (default [] (requestQueue st !! u)))%nat).
    { rewrite Hq. destruct (String.eqb (userId c) u) eqn:Hu.
      - apply String.eqb_eq in Hu. subst u. rewrite Hqueue.
        destruct q; simpl; lia.
      - simpl. lia. }
    assert (Hload : (length (inFlightFor u st') + length (waitingFor u st')
                     = length (inFlightFor u st0) + length (waitingFor u st))%nat).
    { unfold inFlightFor, waitingFor. rewrite Hf, He, List.filter_app, length_app.
      destruct q as [|n q']; simpl.
      - lia.
      - pose proof (emit_balance u n (requestEvents st)). lia. }
    lia.
  - (* the bucket call rejected *)
    subst st'. simpl. split; [|rewrite Hwho; reflexivity].
    intros u. specialize (Hcover u). specialize (Hless u).
    unfold inFlightFor, waitingFor in *. simpl in *.
    destruct (String.eqb (userId c) u); lia.
Qed.

Lemma run_keeps_outcomes evs :
  forall st st',
    tokens_cover st ->
    run st evs = Some st' ->
    tokens_cover st' /\ settled st' = (settled st ++ outcomes evs)%list.
Proof.
  induction evs as [|ev evs IH]; intros st st' Hcover Hrun.
  - simpl in Hrun. injection Hrun as <-. simpl. rewrite app_nil_r. auto.
  - cbn [run] in Hrun.
    destruct (step st ev) as [st1|] eqn:Hstep; [|discriminate].
    destruct ev as [c|who outcome].
    + simpl in Hstep. injection Hstep as <-.
      destruct (IH _ _ (arrival_covered c st Hcover) Hrun) as [Hc Hs].
      split; [exact Hc|]. rewrite Hs.
      destruct (arrival_effect c st) as (_ & -> & _). reflexivity.
    + destruct (settle_covered st st1 who outcome Hcover Hstep) as [Hc1 Hs1].
      destruct (IH _ _ Hc1 Hrun) as [Hc Hs].
      split; [exact Hc|]. rewrite Hs, Hs1, <- app_assoc. reflexivity.
Qed.

Lemma initial_covered : tokens_cover initial.
Proof. intros u. simpl. lia. Qed.

Lemma every_settled_is_an_outcome evs st :
  run initial evs = Some st -> settled st = outcomes evs.
Proof.
  intros Hrun.
  apply (run_keeps_outcomes evs initial st initial_covered Hrun).
Qed.

(** X7: whatever the calls, their tokens and the answers of the store,
    the promises settle one for one with the bucket calls, in the order
    these settle, each with the very response or error of its bucket call;
    in particular the resolver never finds the queue of its client
    missing. *)
Theorem every_promise_gets_its_bucket_outcome evs st :
  run initial evs = Some st ->
  settled st = outcomes evs.
Proof.
  apply every_settled_is_an_outcome.
Qed.

Lemma every_promise_gets_its_bucket_outcome_witness :
  (settled <$> run initial [Arrives first; Arrives second; Arrives third;
                            Settles 0 admitted; Settles 2 storeTimeout;
                            Settles 1 admitted])
  = Some [(0%nat, admitted); (2%nat, storeTimeout); (1%nat, admitted)].
Proof.
  destruct (run initial [Arrives first; Arrives second; Arrives third;
                         Settles 0 admitted; Settles 2 storeTimeout;
                         Settles 1 admitted]) as [st|] eqn:Hrun.
  - simpl. f_equal.
    apply (every_promise_gets_its_bucket_outcome _ st Hrun).
  - vm_compute in Hrun. discriminate.
Defined.

(** ** One call at a time *)

Lemma serialized_when_tokens_differ_witness :
  match run initial [Arrives first; Arrives second; Arrives fourth;
                     Settles 0 admitted] with
  | Some st => (length (inFlightFor "10.0.0.1" st) <= 1)%nat
  | None => False
  end.
Proof.
  destruct (run initial [Arrives first; Arrives second; Arrives fourth;
                         Settles 0 admitted]) as [st|] eqn:Hrun.
  - apply (serialized_when_tokens_differ
             [Arrives first; Arrives second; Arrives fourth; Settles 0 admitted]
             st).
    + vm_compute.
      repeat (apply List.NoDup_cons; [simpl; intuition discriminate|]).
      apply List.NoDup_nil.
    + vm_compute.
      repeat (apply List.NoDup_cons; [simpl; intuition discriminate|]).
      apply List.NoDup_nil.
    + repeat constructor.
    + exact Hrun.
  - vm_compute in Hrun. discriminate.
Defined.

(** ** Nothing is left behind *)

Lemma without_length who c l :
  List.NoDup (map caller l) -> In c l -> caller c = who ->
  (length (without who l) + 1 = length l)%nat.
Proof.
  unfold without.
  induction l as [|x l IH]; simpl; intros Hnd Hin Hwho; [contradiction|].
  apply List.NoDup_cons_iff in Hnd as [Hx Hnd].
  destruct Hin as [->|Hin].
  - rewrite Hwho, Nat.eqb_refl. simpl.
    rewrite (filter_keeps_all _ l); [lia|].
    intros y Hy. apply negb_true_iff, Nat.eqb_neq. intros Hsame.
    apply Hx. rewrite Hwho, <- Hsame. apply in_map. exact Hy.
  - destruct (Nat.eqb (caller x) who) eqn:Hxw; simpl.
    + exfalso. apply Nat.eqb_eq in Hxw. apply Hx.
      rewrite Hxw, <- Hwho. apply in_map. exact Hin.
    + rewrite <- (IH Hnd Hin Hwho). lia.
Qed.

Lemma fifo_run_length evs :
  forall pending pending',
    List.NoDup (map caller (pending ++ arrivals evs)) ->
    fifo_run pending evs = Some pending' ->
    (length pending' + length (outcomes evs)
     = length pending + length (arrivals evs))%nat.
Proof.
  induction evs as [|ev evs IH]; intros pending pending' Hcal Hrun.
  - simpl in *. injection Hrun as <-. lia.
  - cbn [fifo_run] in Hrun.
    destruct (fifo_step pending ev) as [pending1|] eqn:Hstep; [|discriminate].
    destruct ev as [c|who outcome].
    + simpl in Hstep. injection Hstep as <-.
      assert (Ho : outcomes (Arrives c :: evs) = outcomes evs) by reflexivity.
      assert (Ha : arrivals (Arrives c :: evs) = ([c] ++ arrivals evs)%list)
        by reflexivity.
      rewrite Ho, Ha in *. rewrite app_assoc in Hcal.
      pose proof (IH _ _ Hcal Hrun) as Hlen.
      rewrite !length_app in *. simpl in *. lia.
    + cbn [fifo_step] in Hstep.
      destruct (List.find _ pending) as [c|] eqn:Hfind; [|discriminate].
      apply find_caller in Hfind as [Hin Hwho].
      destruct (pendingOf (userId c) pending) as [|oldest others]; [discriminate|].
      destruct (Nat.eqb (caller oldest) who); [|discriminate].
      injection Hstep as <-.
      assert (Ho : outcomes (Settles who outcome :: evs)
                   = ((who, outcome) :: outcomes evs)) by reflexivity.
      assert (Ha : arrivals (Settles who outcome :: evs) = arrivals evs)
        by reflexivity.
      rewrite Ho, Ha in *.
      assert (Hcal' : List.NoDup (map caller (without who pending ++ arrivals evs)))
        by (apply NoDup_map_filter_app; exact Hcal).
      pose proof (IH _ _ Hcal' Hrun) as Hlen.
      rewrite map_app in Hcal. apply List.NoDup_app_remove_r in Hcal.
      pose proof (without_length who c pending Hcal Hin Hwho).
      simpl. lia.
Qed.

(** X9: without token collisions and store errors, once as many promises
    have settled as calls arrived, the serializer holds nothing any more:
    no queue of any client, no listener, no suspended call. *)
Theorem drained_serializer_is_empty evs st :
  List.NoDup (map token (arrivals evs)) ->
  List.NoDup (map caller (arrivals evs)) ->
  Forall no_store_error evs ->
  run initial evs = Some st ->
  length (settled st) = length (arrivals evs) ->
  requestQueue st = ∅ /\ requestEvents st = [] /\ inFlight st = [].
Proof.
  intros Htok Hcal Hok Hrun Hall.
  destruct (run_represented evs [] initial st initial_represented Htok Hcal Hok Hrun)
    as (pending & Hfifo & Hrep).
  rewrite (every_settled_is_an_outcome evs st Hrun) in Hall.
  pose proof (fifo_run_length evs [] pending Hcal Hfifo) as Hlen.
  simpl in Hlen.
  assert (pending = []) by (destruct pending; [reflexivity | simpl in Hlen; lia]).
  subst pending. repeat split.
  - apply map_eq. intros u. rewrite (rep_queue _ _ Hrep u), lookup_empty. reflexivity.
  - destruct (requestEvents st) as [|l rest] eqn:Hevents; [reflexivity|].
    pose proof (rep_waiting _ _ Hrep (userId (snd l))) as Hw.
    rewrite Hevents in Hw. simpl in Hw. rewrite String.eqb_refl in Hw. discriminate.
  - destruct (inFlight st) as [|c rest] eqn:Hflight; [reflexivity|].
    pose proof (rep_inFlight _ _ Hrep (userId c)) as Hf.
    unfold inFlightFor in Hf. rewrite Hflight in Hf. simpl in Hf.
    rewrite String.eqb_refl in Hf. discriminate.
Qed.

Lemma drained_serializer_is_empty_witness :
  match run initial [Arrives first; Arrives second; Settles 0 admitted;
                     Arrives fourth; Settles 1 admitted; Settles 3 admitted] with
  | Some st => requestQueue st = ∅ /\ requestEvents st = [] /\ inFlight st = []
  | None => False
  end.
Proof.
  destruct (run initial [Arrives first; Arrives second; Settles 0 admitted;
                         Arrives fourth; Settles 1 admitted; Settles 3 admitted])
    as [st|] eqn:Hrun.
  - apply (drained_serializer_is_empty
             [Arrives first; Arrives second; Settles 0 admitted;
              Arrives fourth; Settles 1 admitted; Settles 3 admitted] st).
    + vm_compute.
      repeat (apply List.NoDup_cons; [simpl; intuition discriminate|]).
      apply List.NoDup_nil.
    + vm_compute.
      repeat (apply List.NoDup_cons; [simpl; intuition discriminate|]).
      apply List.NoDup_nil.
    + repeat constructor.
    + exact Hrun.
    + vm_compute in Hrun. injection Hrun as <-. reflexivity.
  - vm_compute in Hrun. discriminate.
Defined.

End SerializerFacts.

Module HandlerFacts.

Import Middleware MiddlewareFacts Handler.

(** ** The identity of the client *)

Lemma begun_call parse validate analyse who t req res res' errors c :
  beginRequest parse validate analyse who t req res = Awaits res' errors c ->
  caller c = who /\ timestamp c = t /\
  userId c = propertyKey (clientIp req) /\
  exists ast, parse (default "" (query (body req))) = Ok ast /\
              analyse ast (variables (body req)) = Ok (cost c).
Proof.
  unfold beginRequest.
  destruct (no_query _); [discriminate|].
  destruct (parse _) as [ast|e]; [|discriminate].
  destruct (analyse ast _) as [n|e] eqn:Hn; [|discriminate].
  intros [= _ _ <-]. simpl. repeat split. exists ast. split; [reflexivity | exact Hn].
Qed.



(** ** Validation errors *)

(** X11: validation errors do not stop a request: a query that parses and
    can be analysed is answered 400 with the errors and is still handed to
    [throttledProcess] with its complexity, so that its bucket call is
    made and its tokens are asked for. *)
Theorem invalid_query_is_still_throttled
    parse validate analyse who t req res ast n e errs st :
  no_query (query (body req)) = false ->
  parse (default "" (query (body req))) = Ok ast ->
  validate ast = e :: errs ->
  analyse ast (variables (body req)) = Ok n ->
  requestQueue st !! propertyKey (clientIp req) = None ->
  exists c,
    beginRequest parse validate analyse who t req res
      = Awaits (status 400 res) (Some (e :: errs)) c /\
    cost c = n /\
    In c (inFlight (throttledProcess c st)).
Proof.
  intros Hquery Hparse Herrors Hcost Hidle.
  eexists. unfold beginRequest.
  rewrite Hquery, Hparse, Herrors, Hcost. simpl.
  split; [reflexivity|]. split; [reflexivity|].
  unfold throttledProcess. simpl. rewrite Hidle. simpl.
  apply in_or_app. right. left. reflexivity.
Qed.

Lemma invalid_query_is_still_throttled_witness :
  exists c,
    beginRequest (fun _ => Ok Examples.unknownFieldQuery)
      (fun _ => ["Cannot query field unknown on type Query."])
      (fun _ _ => Ok 1) 0%nat 1000
      {| body := {| query := Some "query { unknown }"; variables := None |};
         ips := None; ip := "10.0.0.1" |}
      freshResponse
    = Awaits (status 400 freshResponse)
        (Some ["Cannot query field unknown on type Query."]) c /\
    cost c = 1 /\
    In c (inFlight (throttledProcess c initial)).
Proof.
  apply (invalid_query_is_still_throttled
           (fun _ => Ok Examples.unknownFieldQuery)
           (fun _ => ["Cannot query field unknown on type Query."])
           (fun _ _ => Ok 1) 0%nat 1000 _ freshResponse
           Examples.unknownFieldQuery 1 _ [] initial);
    reflexivity.
Defined.

(** ** Who is answered 429 *)

(** X12: the handler answers a request itself only when the bucket
    rejected it and dark mode is off; in every other case it leaves status
    code, headers and payload alone and calls [next], with the error when
    [throttledProcess] rejected and without one otherwise. *)
Theorem only_rejections_are_answered dark ts c res awaited :
  let out := handleRateLimiterResponse dark ts c res awaited in
  (snd out = Sent <->
     dark = false /\ exists r, awaited = Ok r /\ success r = false) /\
  (snd out <> Sent ->
     statusCode (fst out) = statusCode res /\
     headers (fst out) = headers res /\
     json (fst out) = json res) /\
  (forall err, snd out = Next (Some err) <-> awaited = Throw err).
Proof.
  unfold handleRateLimiterResponse.
  destruct awaited as [r|e]; cbv zeta.
  - destruct (success r) eqn:Hs, dark; cbn [negb andb fst snd];
      (split; [split|split]).
    all: try discriminate.
    all: try (intros (Hd & r' & Hr & Hs'); injection Hr as <-; congruence).
    all: try (intros _; repeat split; reflexivity).
    all: try (intros H; exfalso; apply H; reflexivity).
    all: try (intros err; split; discriminate).
    intros _. split; [reflexivity|]. exists r. split; [reflexivity | exact Hs].
  - cbn [fst snd]. split; [split|split].
    + discriminate.
    + intros (_ & r & Hr & _). discriminate.
    + intros _. repeat split; reflexivity.
    + intros err. split; intros [= ->]; reflexivity.
Qed.

End HandlerFacts.

Module SetupFacts.

Import Setup.

(** X13: [setupRateLimiter] builds a rate limiter for the type
    ["TOKEN_BUCKET"] only, and then hands bucket size, refill rate, client
    and key expiry over unchanged; every other type, known or not, makes
    it throw. *)
Theorem only_the_token_bucket_is_set_up
    {Redis : Type} (cfg : RateLimiterConfig) (client : Redis) (keyExpiry : Z) :
  (type cfg = "TOKEN_BUCKET" ->
     setupRateLimiter cfg client keyExpiry
       = Done (TokenBucket (bucketSize cfg) (refillRate cfg) client keyExpiry)) /\
  (type cfg <> "TOKEN_BUCKET" ->
     exists message, setupRateLimiter cfg client keyExpiry = SetupError message).
Proof.
  unfold setupRateLimiter. split.
  - intros ->. reflexivity.
  - intros Hother. apply String.eqb_neq in Hother. rewrite Hother.
    destruct (String.eqb (type cfg) "LEAKY_BUCKET"); [eexists; reflexivity|].
    destruct (String.eqb (type cfg) "FIXED_WINDOW"); [eexists; reflexivity|].
    destruct (String.eqb (type cfg) "SLIDING_WINDOW_LOG"); [eexists; reflexivity|].
    destruct (String.eqb (type cfg) "SLIDING_WINDOW_COUNTER"); eexists; reflexivity.
Qed.

Lemma only_the_token_bucket_is_set_up_witness :
  setupRateLimiter
    {| type := "TOKEN_BUCKET"; bucketSize := 10; refillRate := 1 |} tt 86400000
    = Done (TokenBucket 10 1 tt 86400000) /\
  exists message,
    setupRateLimiter
      {| type := "FIXED_WINDOW"; bucketSize := 10; refillRate := 1 |} tt 86400000
      = SetupError message.
Proof.
  split.
  - apply (proj1 (only_the_token_bucket_is_set_up
                    {| type := "TOKEN_BUCKET"; bucketSize := 10; refillRate := 1 |}
                    tt 86400000)).
    reflexivity.
  - apply (proj2 (only_the_token_bucket_is_set_up
                    {| type := "FIXED_WINDOW"; bucketSize := 10; refillRate := 1 |}
                    tt 86400000)).
    discriminate.
Defined.


End SetupFacts.
